(** * Weather_Forecasting_Analysis: the statistics of the dashboard script

    A shallow embedding of the computations of
    [Weather_Forecasting_Analysis.py]: the per-city filter and unit
    conversion, the trend direction, the monthly aggregation, the rolling-mean
    anomaly flagger and the percentile-based extreme-event tracker.

    Numbers.  The script computes with IEEE doubles.  Here a finite double is
    an exact rational ([Q]) and the one non-finite value the script meets,
    NaN, is [None] in [option Q]; arithmetic on a NaN gives a NaN and every
    comparison with a NaN is false, as in pandas and numpy.  Rounding error is
    outside the model.  Equality of rationals is [Qeq] ([==]). *)

From Stdlib Require Import String.
From Stdlib Require Import Reals Qreals Lra.
From Stdlib Require Import List ZArith QArith Qabs Qround Lqa Lia Bool.
From Stdlib Require Import Sorted Permutation.
Import ListNotations.

Open Scope Q_scope.

(** ** Comparisons as the script writes them *)

(** [x < y] on finite values, as a boolean. *)
Definition Qltb (x y : Q) : bool := negb (Qle_bool y x).

(** ** Exceptions

    The script has no [try]; an exception raised by a library call ends the
    run.  [result] is the error monad that threads this through the steps. *)

Inductive exn : Type :=
| IndexError   (* positional indexer out of bounds *)
| ValueError.  (* raised by the forecasting library on a degenerate frame *)

Inductive result (A : Type) : Type :=
| Ok (a : A)
| Raise (e : exn).
Arguments Ok {A} a.
Arguments Raise {A} e.

Definition bind {A B} (m : result A) (k : A -> result B) : result B :=
  match m with
  | Ok a => k a
  | Raise e => Raise e
  end.

Notation "x <- m ;; k" := (bind m (fun x => k))
  (at level 61, m at next level, right associativity).

(** ** Data model *)

(** The radio button offers exactly two units. *)
Inductive Unit : Type := Celsius | Fahrenheit.

(** A calendar date of the [date] column. *)
Record Date : Type := mkDate { year : Z; month : Z; day : Z }.

(** A monthly period, [dt.to_period("M")]: the year and the month. *)
Definition Period : Type := (Z * Z)%type.

Definition to_period (d : Date) : Period := (year d, month d).

(** A row of [weather] after [load_weather]: no missing field is left. *)
Record WeatherRow : Type := mkRow {
  date : Date;
  avg_temp_c : Q;
  city_name : string
}.

(** A row of [filtered] once the [temperature] column is added; only the two
    columns the later sections read are kept. *)
Record Obs : Type := mkObs { ds : Date; temperature : Q }.

(** ** Ordering of dates and periods *)

Definition period_compare (p q : Period) : comparison :=
  match Z.compare (fst p) (fst q) with
  | Eq => Z.compare (snd p) (snd q)
  | c => c
  end.

Definition date_compare (a b : Date) : comparison :=
  match period_compare (to_period a) (to_period b) with
  | Eq => Z.compare (day a) (day b)
  | c => c
  end.

Definition date_leb (a b : Date) : bool :=
  match date_compare a b with
  | Gt => false
  | _ => true
  end.

Definition period_eqb (p q : Period) : bool :=
  match period_compare p q with
  | Eq => true
  | _ => false
  end.

Definition period_lt (p q : Period) : Prop := period_compare p q = Lt.

(** ** Unit converter (the two branches of [if unit == "Fahrenheit (°F)"]) *)

Definition convert (unit : Unit) (c : Q) : Q :=
  match unit with
  | Fahrenheit => c * 9 / 5 + 32
  | Celsius => c
  end.

(** ** FILTER DATA *)

Definition select_city (weather : list WeatherRow) (selected_city : string)
  : list WeatherRow :=
  filter (fun r => String.eqb (city_name r) selected_city) weather.

(** [sort_values("date")]: rows in non-decreasing date order.  Rows of equal
    date keep their relative order here. *)
Fixpoint insert_by_date (r : WeatherRow) (l : list WeatherRow)
  : list WeatherRow :=
  match l with
  | [] => [r]
  | x :: t =>
      if date_leb (date r) (date x) then r :: l else x :: insert_by_date r t
  end.

Definition sort_values (l : list WeatherRow) : list WeatherRow :=
  fold_right insert_by_date [] l.

(** The frame [filtered] with its [temperature] column. *)
Definition filtered (weather : list WeatherRow) (selected_city : string)
    (unit : Unit) : list Obs :=
  map (fun r => mkObs (date r) (convert unit (avg_temp_c r)))
      (sort_values (select_city weather selected_city)).

(** ** Column statistics *)

Definition Qsum (xs : list Q) : Q := fold_right Qplus 0 xs.

Definition Qlen (xs : list Q) : Q := inject_Z (Z.of_nat (length xs)).

(** Mean of a column known to hold at least one value. *)
Definition Qmean (xs : list Q) : Q := Qsum xs / Qlen xs.

(** [Series.mean()], [Series.max()], [Series.min()]: NaN on an empty column. *)
Definition mean (xs : list Q) : option Q :=
  match xs with
  | [] => None
  | _ => Some (Qmean xs)
  end.

Definition Qmax2 (x y : Q) : Q := if Qle_bool x y then y else x.
Definition Qmin2 (x y : Q) : Q := if Qle_bool x y then x else y.

Definition maximum (xs : list Q) : option Q :=
  match xs with
  | [] => None
  | x :: t => Some (fold_left Qmax2 t x)
  end.

Definition minimum (xs : list Q) : option Q :=
  match xs with
  | [] => None
  | x :: t => Some (fold_left Qmin2 t x)
  end.

(** [round(x, 2)]: to the nearest hundredth, halves to the even neighbour;
    a NaN stays a NaN. *)
Definition round_half_even (x : Q) : Z :=
  let f := Qfloor x in
  let r := x - inject_Z f in
  if Qltb r (1 # 2) then f
  else if Qltb (1 # 2) r then (f + 1)%Z
  else if Z.even f then f else (f + 1)%Z.

Definition round2 (x : option Q) : option Q :=
  option_map (fun v => inject_Z (round_half_even (v * 100)) / 100) x.

(** ** DAILY TREND *)

(** [Series.iloc[i]]: position [i], counted from the end when negative;
    [IndexError] when out of bounds. *)
Definition iloc {A : Type} (l : list A) (i : Z) : result A :=
  let n := Z.of_nat (length l) in
  let j := if (i <? 0)%Z then (n + i)%Z else i in
  if ((j <? 0) || (n <=? j))%Z then Raise IndexError
  else match nth_error l (Z.to_nat j) with
       | Some a => Ok a
       | None => Raise IndexError
       end.

Definition trend_direction (temps : list Q) : result string :=
  last <- iloc temps (-1) ;;
  first <- iloc temps 0 ;;
  Ok (if Qltb first last then "increasing"%string else "decreasing"%string).

(** ** ANOMALY DETECTION *)

(** *** Monthly aggregation: [groupby("year_month")["temperature"].mean()] *)

(** The group keys: each period once, in increasing order. *)
Fixpoint insert_period (k : Period) (ks : list Period) : list Period :=
  match ks with
  | [] => [k]
  | k' :: t =>
      match period_compare k k' with
      | Lt => k :: ks
      | Eq => ks
      | Gt => k' :: insert_period k t
      end
  end.

Definition group_keys (ks : list Period) : list Period :=
  fold_right insert_period [] ks.

(** The temperatures of the rows of one period, in row order. *)
Definition group (k : Period) (rows : list Obs) : list Q :=
  map temperature
      (filter (fun r => period_eqb (to_period (ds r)) k) rows).

(** A row of [monthly]. *)
Record MonthlyPoint : Type :=
  mkMonthly { year_month : Period; mean_temperature : Q }.

Definition monthly (rows : list Obs) : list MonthlyPoint :=
  map (fun k => mkMonthly k (Qmean (group k rows)))
      (group_keys (map (fun r => to_period (ds r)) rows)).

(** *** [rolling(12).mean()] *)

(** The observations of the trailing window of width [w] that ends at
    position [i]: positions [i+1-w .. i], cut at the start of the column. *)
Definition window (w i : nat) (xs : list Q) : list Q :=
  skipn (S i - w) (firstn (S i) xs).

(** [min_periods] defaults to the window width: fewer observations give NaN. *)
Definition rolling_mean (w : nat) (xs : list Q) : list (option Q) :=
  map (fun i =>
         let obs := window w i xs in
         if (length obs <? w)%nat then None else Some (Qmean obs))
      (seq 0 (length xs)).

Definition rolling (m : list MonthlyPoint) : list (option Q) :=
  rolling_mean 12 (map mean_temperature m).

(** [monthly["temperature"] - monthly["rolling"]], NaN where [rolling] is. *)
Definition sub_nan (x : Q) (r : option Q) : option Q :=
  option_map (fun v => x - v) r.

Fixpoint zip_with {A B C : Type} (f : A -> B -> C) (l : list A) (l' : list B)
  : list C :=
  match l, l' with
  | a :: t, b :: t' => f a b :: zip_with f t t'
  | _, _ => []
  end.

Definition deviation (m : list MonthlyPoint) : list (option Q) :=
  zip_with sub_nan (map mean_temperature m) (rolling m).

(** *** [Series.std()]

    pandas skips the NaN entries and divides the sum of squares by
    [count - ddof] with [ddof = 1]; the result is NaN when [count <= ddof].
    The standard deviation is the square root of that variance.  The root of
    a rational is irrational in general, so it is kept as a [surd]:
    [Sqrt v] stands for the real number √v. *)

Fixpoint dropna (xs : list (option Q)) : list Q :=
  match xs with
  | [] => []
  | Some x :: t => x :: dropna t
  | None :: t => dropna t
  end.

Definition var (ddof : nat) (xs : list Q) : option Q :=
  if (length xs <=? ddof)%nat then None
  else
    let m := Qmean xs in
    Some (Qsum (map (fun x => (x - m) * (x - m)) xs)
          / inject_Z (Z.of_nat (length xs - ddof))).

Inductive surd : Type := Sqrt (v : Q).

Definition radicand (s : surd) : Q := let (v) := s in v.

Definition std (xs : list (option Q)) : option surd :=
  option_map Sqrt (var 1 (dropna xs)).

(** [s * k] for a non-negative rational [k]: k·√v = √(k²·v). *)
Definition surd_scale (s : surd) (k : Q) : surd :=
  Sqrt (k * k * radicand s).

(** [x > s] for a rational [x] and a surd [s = √v], [v >= 0]:
    x > √v exactly when x is positive and x² > v. *)
Definition gt_surd (x : Q) (s : surd) : bool :=
  Qltb 0 x && Qltb (radicand s) (x * x).

Definition threshold (m : list MonthlyPoint) : option surd :=
  option_map (fun s => surd_scale s 2) (std (deviation m)).

(** [np.abs(monthly["deviation"]) > threshold]: false wherever the deviation
    or the threshold is NaN. *)
Definition exceeds (thr : option surd) (d : option Q) : bool :=
  match d, thr with
  | Some x, Some t => gt_surd (Qabs x) t
  | _, _ => false
  end.

Definition anomaly_mask (m : list MonthlyPoint) : list bool :=
  map (exceeds (threshold m)) (deviation m).

(** Boolean-mask selection [frame[mask]]. *)
Fixpoint select {A : Type} (l : list A) (mask : list bool) : list A :=
  match l, mask with
  | a :: t, b :: t' => if b then a :: select t t' else select t t'
  | _, _ => []
  end.

Definition anomalies (m : list MonthlyPoint) : list MonthlyPoint :=
  select m (anomaly_mask m).

(** ** EXTREME EVENTS TRACKER *)

Fixpoint insert_sorted (x : Q) (l : list Q) : list Q :=
  match l with
  | [] => [x]
  | y :: t => if Qle_bool x y then x :: l else y :: insert_sorted x t
  end.

Definition sort (l : list Q) : list Q := fold_right insert_sorted [] l.

(** [np.percentile(a, q)], default method (linear): with the values in
    increasing order, the virtual index is [q/100 * (n-1)]; the result
    interpolates between the values at its floor and the next position.
    On an empty array numpy raises instead of returning a value. *)
Definition lerp (a b t : Q) : Q := a + (b - a) * t.

Definition virtual_index (n : nat) (q : Q) : Q :=
  q / 100 * (inject_Z (Z.of_nat n) - 1).

Definition percentile (a : list Q) (q : Q) : result Q :=
  match a with
  | [] => Raise IndexError
  | _ =>
      let s := sort a in
      let n := length a in
      let vi := virtual_index n q in
      let lo := Z.to_nat (Qfloor vi) in
      let hi := Nat.min (lo + 1) (n - 1) in
      let gamma := vi - inject_Z (Qfloor vi) in
      Ok (lerp (nth lo s 0) (nth hi s 0) gamma)
  end.

Definition heat_threshold (rows : list Obs) : result Q :=
  percentile (map temperature rows) 95.

Definition cold_threshold (rows : list Obs) : result Q :=
  percentile (map temperature rows) 5.

Definition is_heatwave (heat : Q) (r : Obs) : bool :=
  Qltb heat (temperature r).

Definition is_coldwave (cold : Q) (r : Obs) : bool :=
  Qltb (temperature r) cold.

Definition heatwave_days (rows : list Obs) (heat : Q) : list Obs :=
  filter (is_heatwave heat) rows.

Definition coldwave_days (rows : list Obs) (cold : Q) : list Obs :=
  filter (is_coldwave cold) rows.

(** What the tracker shows: the two counts and the two thresholds. *)
Record ExtremeEvents : Type := mkExtreme {
  heat : Q;
  cold : Q;
  n_heatwave_days : nat;
  n_coldwave_days : nat
}.

Definition extreme_events (rows : list Obs) : result ExtremeEvents :=
  h <- heat_threshold rows ;;
  c <- cold_threshold rows ;;
  Ok (mkExtreme h c (length (heatwave_days rows h))
                (length (coldwave_days rows c))).

(** ** The script, top to bottom

    The sections run in file order and nothing catches an exception, so the
    first step that raises ends the run.  The two choropleth sections read
    the whole dataset, not the selection, and are left out.  The forecasting
    library is a collaborator: [forecast_service df periods] stands for
    [Prophet().fit(df)] followed by [predict] on a frame extended by
    [periods] days, and raises when the library does. *)

Definition prophet_df (rows : list Obs) : list (Date * Q) :=
  map (fun r => (ds r, temperature r)) rows.

Record Dashboard : Type := mkDashboard {
  kpi_average : option Q;
  kpi_max : option Q;
  kpi_min : option Q;
  trend : string;
  monthly_points : list MonthlyPoint;
  anomaly_points : list MonthlyPoint;
  n_anomalies : nat;
  forecast : list (Date * Q);
  extremes : ExtremeEvents
}.

Section Script.

Variable forecast_service : list (Date * Q) -> nat -> result (list (Date * Q)).

Definition run (weather : list WeatherRow) (selected_city : string)
    (unit : Unit) : result Dashboard :=
  let rows := filtered weather selected_city unit in
  let temps := map temperature rows in
  let average := round2 (mean temps) in
  let hi := round2 (maximum temps) in
  let lo := round2 (minimum temps) in
  direction <- trend_direction temps ;;
  let m := monthly rows in
  let a := anomalies m in
  fc <- forecast_service (prophet_df rows) 365%nat ;;
  ex <- extreme_events rows ;;
  Ok (mkDashboard average hi lo direction m a (length a) fc ex).

End Script.

(** ** Meaning of a surd as a real number *)

Definition surd_val (s : surd) : R := sqrt (Q2R (radicand s)).

(** ** The spec's wording, for comparison with the definitions above *)

(** Rolling mean at index [i]: the mean of the twelve values at indices
    [i-11 .. i] when [i >= 11], undefined otherwise. *)
Definition spec_rolling_mean (temps : list Q) (i : nat) : option Q :=
  if (11 <=? i)%nat
  then Some (Qsum (map (fun j => nth j temps 0) (seq (i - 11) 12)) / 12)
  else None.

(** Deviation at index [i]: the value minus its rolling mean, where defined. *)
Definition spec_deviation (temps : list Q) (i : nat) : option Q :=
  match spec_rolling_mean temps i with
  | Some r => Some (nth i temps 0 - r)
  | None => None
  end.

(** Sample variance of at least two values: the squared distances to the
    mean, summed and divided by one less than the count. *)
Definition spec_sample_variance (ds : list Q) : Q :=
  Qsum (map (fun d => (d - Qmean ds) * (d - Qmean ds)) ds)
  / (Qlen ds - 1).

(** Percentile [q] by linear interpolation between order statistics: with
    the values [s] in increasing order and rank [h = q/100 * (n-1)], the
    value at [floor h] plus the fraction [h - floor h] of the step to the
    value at [ceiling h]. *)
Definition spec_percentile (s : list Q) (q : Q) : Q :=
  let h := q / 100 * (Qlen s - 1) in
  let below := nth (Z.to_nat (Qfloor h)) s 0 in
  let above := nth (Z.to_nat (Qceiling h)) s 0 in
  below + (h - inject_Z (Qfloor h)) * (above - below).

(** ** Relations between two columns *)

(** Two columns with NaN entries agree on where the NaNs are and are related
    by [R] elsewhere. *)
Definition opt_rel {A B : Type} (R : A -> B -> Prop) (x : option A)
    (y : option B) : Prop :=
  match x, y with
  | Some a, Some b => R a b
  | None, None => True
  | _, _ => False
  end.

(** [affine k b x y]: [x] is the image of [y] under [y |-> k * y + b]. *)
Definition affine (k b x y : Q) : Prop := x == k * y + b.

(** [scaled k x y]: [x] is [k] times [y]. *)
Definition scaled (k x y : Q) : Prop := x == k * y.

(** The row of the Fahrenheit frame for a row of the Celsius frame. *)
Definition to_fahrenheit (r : Obs) : Obs :=
  mkObs (ds r) (convert Fahrenheit (temperature r)).

(** ** Sample inputs *)

(** Thirteen consecutive months: twelve at 10 degrees, then one at 100. *)
Definition thirteen_points : list MonthlyPoint :=
  map (fun i => mkMonthly (2020 + Z.of_nat (i / 12), 1 + Z.of_nat (i mod 12))%Z
                          (if (i <? 12)%nat then 10 else 100))
      (seq 0 13).

(** Two years of months: twenty-three at 10 degrees, then one at 100. *)
Definition spike_points : list MonthlyPoint :=
  map (fun i => mkMonthly (2020 + Z.of_nat (i / 12), 1 + Z.of_nat (i mod 12))%Z
                          (if (i <? 23)%nat then 10 else 100))
      (seq 0 24).

(** One row a day with the temperatures 1, 2, ..., 100. *)
Definition hundred_days : list Obs :=
  map (fun i => mkObs (mkDate 2021 1 (Z.of_nat i)) (inject_Z (Z.of_nat i)))
      (seq 1 100).

(** Three days of one week. *)
Definition three_days : list Obs :=
  [ mkObs (mkDate 2021 3 1) 20; mkObs (mkDate 2021 3 2) 30;
    mkObs (mkDate 2021 3 3) (-4) ].

(** Two days at the same temperature. *)
Definition constant_days : list Obs :=
  [ mkObs (mkDate 2021 3 1) 20; mkObs (mkDate 2021 3 2) 20 ].

(** A dataset with one city, [Pune], observed on two days. *)
Definition sample_weather : list WeatherRow :=
  [ mkRow (mkDate 2021 3 2) 30 "Pune";
    mkRow (mkDate 2021 3 1) 20 "Pune" ].

(** A forecasting collaborator that refuses any frame of fewer than two
    rows and otherwise repeats the last value over the horizon. *)
Definition strict_forecast (df : list (Date * Q)) (periods : nat)
  : result (list (Date * Q)) :=
  match df with
  | [] | [_] => Raise ValueError
  | first :: _ => Ok (df ++ repeat (last df first) periods)
  end.

(** A forecasting collaborator that never fails. *)
Definition lenient_forecast (df : list (Date * Q)) (periods : nat)
  : result (list (Date * Q)) :=
  Ok df.

(** ** Geographic metadata and the sidebar

    [geo_df] is the city table joined to the country table.  Only the
    columns the script reads are kept.  A city may lack a country code, and
    the left join in [load_geo] leaves the continent missing for a code the
    country table does not know. *)

Record GeoRow : Type := mkGeo {
  geo_city_name : string;
  iso3 : option string;
  continent : option string
}.

(** [Series.dropna()] on a column with missing entries. *)
Fixpoint present {A : Type} (l : list (option A)) : list A :=
  match l with
  | [] => []
  | Some a :: t => a :: present t
  | None :: t => present t
  end.

(** [Series.unique()]: the distinct values, in order of first appearance. *)
Fixpoint unique (l : list string) : list string :=
  match l with
  | [] => []
  | x :: t => x :: filter (fun y => negb (String.eqb x y)) (unique t)
  end.

(** [sorted(...)] on strings. *)
Fixpoint insert_string (x : string) (l : list string) : list string :=
  match l with
  | [] => [x]
  | y :: t => if String.leb x y then x :: l else y :: insert_string x t
  end.

Definition sorted (l : list string) : list string :=
  fold_right insert_string [] l.

Definition continents (geo_df : list GeoRow) : list string :=
  sorted (unique (present (map continent geo_df))).

(** [geo_df["continent"] == selected_continent]: false on a missing
    continent. *)
Definition in_continent (selected_continent : string) (g : GeoRow) : bool :=
  match continent g with
  | Some c => String.eqb c selected_continent
  | None => false
  end.

Definition cities_list (geo_df : list GeoRow) (selected_continent : string)
  : list string :=
  unique (map geo_city_name (filter (in_continent selected_continent) geo_df)).

(** The options of the city select box. *)
Definition city_options (geo_df : list GeoRow) (selected_continent : string)
  : list string :=
  sorted (cities_list geo_df selected_continent).

(** ** GLOBAL CHOROPLETH *)

(** [weather.merge(geo_df[...], on="city_name", how="left")]: every weather
    row once for each geo row of the same city name, in order, and once with
    a missing country code when no geo row has that name. *)
Definition merge_left (weather : list WeatherRow) (geo_df : list GeoRow)
  : list (WeatherRow * option string) :=
  flat_map
    (fun w =>
       match filter (fun g => String.eqb (geo_city_name g) (city_name w))
                    geo_df with
       | [] => [(w, None)]
       | gs => map (fun g => (w, iso3 g)) gs
       end)
    weather.

(** The [avg_temp_c] values of the merged rows of one country. *)
Definition country_group (k : string)
    (map_df : list (WeatherRow * option string)) : list Q :=
  map (fun p => avg_temp_c (fst p))
      (filter (fun p => match snd p with
                        | Some c => String.eqb c k
                        | None => false
                        end)
              map_df).

(** [map_df.groupby("iso3")["avg_temp_c"].mean()]: one row for each country
    code present, in increasing order; rows without a code are left out. *)
Definition country_avg (weather : list WeatherRow) (geo_df : list GeoRow)
  : list (string * Q) :=
  let map_df := merge_left weather geo_df in
  map (fun k => (k, Qmean (country_group k map_df)))
      (sorted (unique (present (map snd map_df)))).

(** The [temperature] column of [country_avg]: the unit conversion is
    applied to the country means. *)
Definition country_temperature (unit : Unit) (weather : list WeatherRow)
    (geo_df : list GeoRow) : list (string * Q) :=
  map (fun p => (fst p, convert unit (snd p))) (country_avg weather geo_df).

(** How many rows of the city table carry the city name of a weather row
    together with the country code [k]. *)
Definition match_count (k : string) (geo_df : list GeoRow) (r : WeatherRow)
  : nat :=
  length (filter (fun g => String.eqb (geo_city_name g) (city_name r)
                           && match iso3 g with
                              | Some c => String.eqb c k
                              | None => false
                              end)
                 geo_df).

(** Number of [true] entries of a mask. *)
Definition count_true (mask : list bool) : nat :=
  length (filter (fun b => b) mask).

(** Thirteen months warming by one degree a month, from 0 degrees. *)
Definition rising_points : list MonthlyPoint :=
  map (fun i => mkMonthly (2020 + Z.of_nat (i / 12), 1 + Z.of_nat (i mod 12))%Z
                          (inject_Z (Z.of_nat i)))
      (seq 0 13).

(** A small city table: two countries share the city name [Salem]. *)
Definition sample_geo : list GeoRow :=
  [ mkGeo "Pune" (Some "IND"%string) (Some "Asia"%string);
    mkGeo "Salem" (Some "IND"%string) (Some "Asia"%string);
    mkGeo "Salem" (Some "USA"%string) (Some "North America"%string);
    mkGeo "Atlantis" None None ].

(** * Properties *)

(** ** Comparisons *)

Lemma Qltb_lt (x y : Q) : Qltb x y = true <-> x < y.
Proof.
  unfold Qltb. rewrite negb_true_iff.
  split; intro H.
  - apply Qnot_le_lt. intro L. apply Qle_bool_iff in L. congruence.
  - destruct (Qle_bool y x) eqn:E; [|reflexivity].
    apply Qle_bool_iff in E. lra.
Qed.

Lemma Qltb_nlt (x y : Q) : Qltb x y = false <-> y <= x.
Proof.
  unfold Qltb. rewrite negb_false_iff. apply Qle_bool_iff.
Qed.

Lemma Qsquare_nonneg (y : Q) : 0 <= y * y.
Proof.
  destruct (Qlt_le_dec y 0) as [N|P].
  - setoid_replace (y * y) with ((- y) * (- y)) by ring.
    apply Qmult_le_0_compat; lra.
  - now apply Qmult_le_0_compat.
Qed.

#[export] Instance Qltb_comp : Proper (Qeq ==> Qeq ==> eq) Qltb.
Proof. intros a b E c d F. unfold Qltb. now rewrite E, F. Qed.

(** ** The order on periods *)

Lemma period_compare_eq (p q : Period) : period_compare p q = Eq <-> p = q.
Proof.
  destruct p as [y m], q as [y' m']. unfold period_compare. simpl.
  destruct (Z.compare_spec y y') as [E|L|G].
  - rewrite Z.compare_eq_iff. split; intro H.
    + now subst.
    + now inversion H.
  - split; [discriminate|]. intro H. inversion H. lia.
  - split; [discriminate|]. intro H. inversion H. lia.
Qed.

Lemma period_eqb_eq (p q : Period) : period_eqb p q = true <-> p = q.
Proof.
  unfold period_eqb. rewrite <- period_compare_eq.
  destruct (period_compare p q); split; congruence.
Qed.

Lemma period_eqb_refl (p : Period) : period_eqb p p = true.
Proof. now apply period_eqb_eq. Qed.

Lemma period_compare_antisym (p q : Period) :
  period_compare q p = CompOpp (period_compare p q).
Proof.
  destruct p as [y m], q as [y' m']. unfold period_compare. simpl.
  rewrite (Z.compare_antisym y y'), (Z.compare_antisym m m').
  now destruct (y ?= y')%Z.
Qed.

Lemma period_lt_trans (p q r : Period) :
  period_lt p q -> period_lt q r -> period_lt p r.
Proof.
  destruct p as [y m], q as [y' m'], r as [y'' m''].
  unfold period_lt, period_compare. simpl.
  destruct (Z.compare_spec y y'), (Z.compare_spec y' y''),
    (Z.compare_spec y y''); try discriminate; try lia; try reflexivity.
  rewrite !Z.compare_lt_iff. lia.
Qed.

Lemma period_lt_irrefl (p : Period) : ~ period_lt p p.
Proof.
  unfold period_lt. intro H.
  assert (E : period_compare p p = Eq) by now apply period_compare_eq.
  congruence.
Qed.


(** ** Results *)

Lemma Ok_inj {A : Type} (a b : A) : Ok a = Ok b -> a = b.
Proof. congruence. Qed.

(** ** Unit converter *)

Section UnitConverter.

Lemma convert_fahrenheit (c : Q) : convert Fahrenheit c == (9 # 5) * c + 32.
Proof. unfold convert. field. Qed.

Lemma convert_celsius (c : Q) : convert Celsius c = c.
Proof. reflexivity. Qed.

(** The conversion is strictly increasing, whatever the unit. *)
Lemma convert_lt (unit : Unit) (x y : Q) :
  convert unit x < convert unit y <-> x < y.
Proof.
  destruct unit; [reflexivity|].
  rewrite !convert_fahrenheit. split; intro H; lra.
Qed.

Lemma convert_le (unit : Unit) (x y : Q) :
  convert unit x <= convert unit y <-> x <= y.
Proof.
  destruct unit; [reflexivity|].
  rewrite !convert_fahrenheit. split; intro H; lra.
Qed.

#[export] Instance convert_comp (unit : Unit) :
  Proper (Qeq ==> Qeq) (convert unit).
Proof. intros x y E. destruct unit; simpl; now rewrite E. Qed.

End UnitConverter.

(** ** The filter keeps the rows of the city, the sort keeps every row *)

Section Filter.

Lemma insert_by_date_length (r : WeatherRow) (l : list WeatherRow) :
  length (insert_by_date r l) = S (length l).
Proof.
  induction l as [|x t IH]; simpl; [reflexivity|].
  destruct (date_leb (date r) (date x)); simpl; congruence.
Qed.

Lemma sort_values_length (l : list WeatherRow) :
  length (sort_values l) = length l.
Proof.
  induction l as [|x t IH]; simpl; [reflexivity|].
  now rewrite insert_by_date_length, IH.
Qed.

Lemma filtered_length (weather : list WeatherRow) (city : string)
    (unit : Unit) :
  length (filtered weather city unit) = length (select_city weather city).
Proof. unfold filtered. now rewrite length_map, sort_values_length. Qed.

Lemma filtered_nil (weather : list WeatherRow) (city : string) (unit : Unit) :
  select_city weather city = [] -> filtered weather city unit = [].
Proof.
  intro H. apply length_zero_iff_nil. now rewrite filtered_length, H.
Qed.

Lemma filtered_not_nil (weather : list WeatherRow) (city : string)
    (unit : Unit) :
  select_city weather city <> [] -> filtered weather city unit <> [].
Proof.
  intros H E. apply H. apply length_zero_iff_nil.
  now rewrite <- (filtered_length weather city unit), E.
Qed.

(** The Fahrenheit frame is the Celsius frame with every temperature
    converted: same rows, same dates, same order. *)
Lemma filtered_fahrenheit (weather : list WeatherRow) (city : string) :
  filtered weather city Fahrenheit
  = map to_fahrenheit (filtered weather city Celsius).
Proof. unfold filtered. now rewrite map_map. Qed.

End Filter.

(** ** Positional indexing and the trend direction *)

Section Trend.

Lemma nth_error_last {A : Type} (l : list A) (d : A) :
  l <> [] -> nth_error l (length l - 1) = Some (last l d).
Proof.
  induction l as [|x t IH]; [congruence|]. intros _.
  destruct t as [|y t']; [reflexivity|].
  replace (length (x :: y :: t') - 1)%nat with (S (length (y :: t') - 1))
    by (simpl; lia).
  change (nth_error (y :: t') (length (y :: t') - 1)
          = Some (last (y :: t') d)).
  apply IH. discriminate.
Qed.

Lemma iloc_first {A : Type} (l : list A) (d : A) :
  l <> [] -> iloc l 0 = Ok (hd d l).
Proof. destruct l as [|x t]; [congruence|]. intros _. reflexivity. Qed.

Lemma iloc_last {A : Type} (l : list A) (d : A) :
  l <> [] -> iloc l (-1) = Ok (last l d).
Proof.
  intro H. unfold iloc.
  assert (L : (0 < length l)%nat)
    by (destruct l; [congruence | simpl; lia]).
  replace (-1 <? 0)%Z with true by reflexivity.
  replace ((Z.of_nat (length l) + -1 <? 0)%Z
           || (Z.of_nat (length l) <=? Z.of_nat (length l) + -1)%Z)
    with false.
  - replace (Z.to_nat (Z.of_nat (length l) + -1)) with (length l - 1)%nat
      by lia.
    now rewrite (nth_error_last l d H).
  - symmetry. apply orb_false_iff. split.
    + apply Z.ltb_ge. lia.
    + apply Z.leb_gt. lia.
Qed.

Lemma iloc_nil {A : Type} (i : Z) : iloc (@nil A) i = Raise IndexError.
Proof.
  unfold iloc. change (Z.of_nat (length (@nil A))) with 0%Z.
  destruct (i <? 0)%Z eqn:E.
  - apply Z.ltb_lt in E.
    assert (F : (0 + i <? 0)%Z = true) by (apply Z.ltb_lt; lia).
    now rewrite F.
  - apply Z.ltb_ge in E.
    assert (F : (i <? 0)%Z = false) by (apply Z.ltb_ge; lia).
    assert (G : (0 <=? i)%Z = true) by (apply Z.leb_le; lia).
    now rewrite F, G.
Qed.

Lemma trend_direction_nil : trend_direction [] = Raise IndexError.
Proof. reflexivity. Qed.

Lemma trend_direction_cons (temps : list Q) :
  temps <> [] ->
  trend_direction temps
  = Ok (if Qltb (hd 0 temps) (last temps 0)
        then "increasing"%string else "decreasing"%string).
Proof.
  intro H. unfold trend_direction.
  now rewrite (iloc_last temps 0 H), (iloc_first temps 0 H).
Qed.

End Trend.

(** ** Monthly aggregation *)

Section MonthlyAggregator.

Lemma insert_period_In (k k' : Period) (ks : list Period) :
  In k' (insert_period k ks) <-> k' = k \/ In k' ks.
Proof.
  induction ks as [|x t IH]; simpl.
  - intuition.
  - destruct (period_compare k x) eqn:E; simpl.
    + apply period_compare_eq in E. subst x. intuition.
    + intuition.
    + rewrite IH. intuition.
Qed.

Lemma insert_period_sorted (k : Period) (ks : list Period) :
  StronglySorted period_lt ks ->
  StronglySorted period_lt (insert_period k ks).
Proof.
  induction 1 as [|x t S IH F]; simpl.
  - constructor; constructor.
  - destruct (period_compare k x) eqn:E.
    + now constructor.
    + constructor; [now constructor|].
      constructor; [exact E|].
      apply Forall_forall. intros y Hy.
      apply period_lt_trans with x; [exact E|].
      rewrite Forall_forall in F. now apply F.
    + constructor; [exact IH|].
      apply Forall_forall. intros y Hy.
      apply insert_period_In in Hy. destruct Hy as [->|Hy].
      * unfold period_lt. rewrite period_compare_antisym, E. reflexivity.
      * rewrite Forall_forall in F. now apply F.
Qed.

Lemma group_keys_In (k : Period) (ks : list Period) :
  In k (group_keys ks) <-> In k ks.
Proof.
  induction ks as [|x t IH]; simpl; [tauto|].
  rewrite insert_period_In, IH. intuition.
Qed.

Lemma group_keys_sorted (ks : list Period) :
  StronglySorted period_lt (group_keys ks).
Proof.
  induction ks as [|x t IH]; simpl.
  - constructor.
  - now apply insert_period_sorted.
Qed.

(** A strictly increasing list has no repetition. *)
Lemma sorted_NoDup (ks : list Period) :
  StronglySorted period_lt ks -> NoDup ks.
Proof.
  induction 1 as [|x t S IH F]; constructor; [|exact IH].
  intro Hx. rewrite Forall_forall in F.
  exact (period_lt_irrefl x (F x Hx)).
Qed.

Lemma monthly_keys (rows : list Obs) :
  map year_month (monthly rows)
  = group_keys (map (fun r => to_period (ds r)) rows).
Proof.
  unfold monthly. rewrite map_map. simpl. apply map_id.
Qed.

Lemma monthly_length (rows : list Obs) :
  length (monthly rows)
  = length (group_keys (map (fun r => to_period (ds r)) rows)).
Proof. unfold monthly. apply length_map. Qed.

Lemma group_In (k : Period) (rows : list Obs) (x : Q) :
  In x (group k rows)
  <-> exists r, In r rows /\ to_period (ds r) = k /\ temperature r = x.
Proof.
  unfold group. rewrite in_map_iff. split.
  - intros [r [E H]]. apply filter_In in H. destruct H as [H P].
    apply period_eqb_eq in P. now exists r.
  - intros [r [H [P E]]]. exists r. split; [exact E|].
    apply filter_In. split; [exact H|]. now apply period_eqb_eq.
Qed.

Lemma group_length (k : Period) (rows : list Obs) :
  length (group k rows)
  = length (filter (fun r => period_eqb (to_period (ds r)) k) rows).
Proof. unfold group. apply length_map. Qed.

Lemma monthly_In (p : MonthlyPoint) (rows : list Obs) :
  In p (monthly rows) ->
  (exists r, In r rows /\ to_period (ds r) = year_month p)
  /\ mean_temperature p = Qmean (group (year_month p) rows).
Proof.
  unfold monthly. rewrite in_map_iff. intros [k [E H]]. subst p. simpl.
  split; [|reflexivity].
  apply (proj1 (group_keys_In _ _)) in H.
  apply (proj1 (in_map_iff _ _ _)) in H.
  destruct H as [r [E H]]. now exists r.
Qed.

End MonthlyAggregator.

(** ** Trailing windows and the rolling mean *)

Section Rolling.

Lemma firstn_as_map (xs : list Q) (w : nat) :
  (w <= length xs)%nat ->
  firstn w xs = map (fun j => nth j xs 0) (seq 0 w).
Proof.
  revert xs. induction w as [|w IH]; intros xs L; [reflexivity|].
  destruct xs as [|x t]; [simpl in L; lia|].
  simpl. f_equal. rewrite <- seq_shift, map_map.
  apply IH. simpl in L. lia.
Qed.

Lemma skipn_firstn_as_map (xs : list Q) (a w : nat) :
  (a + w <= length xs)%nat ->
  skipn a (firstn (a + w) xs) = map (fun j => nth j xs 0) (seq a w).
Proof.
  revert xs. induction a as [|a IH]; intros xs L.
  - simpl. now apply firstn_as_map.
  - destruct xs as [|x t]; [simpl in L; lia|].
    simpl. rewrite <- seq_shift, map_map.
    apply IH. simpl in L. lia.
Qed.

Lemma window_length (w i : nat) (xs : list Q) :
  (i < length xs)%nat ->
  length (window w i xs) = Nat.min w (S i).
Proof.
  intro L. unfold window.
  rewrite length_skipn, length_firstn. lia.
Qed.

(** A full window holds the values at positions [i+1-w .. i]. *)
Lemma window_full (w i : nat) (xs : list Q) :
  (i < length xs)%nat -> (w <= S i)%nat ->
  window w i xs = map (fun j => nth j xs 0) (seq (S i - w) w).
Proof.
  intros L W. unfold window.
  replace (S i) with ((S i - w) + w)%nat at 2 by lia.
  apply skipn_firstn_as_map. lia.
Qed.

Lemma rolling_mean_length (w : nat) (xs : list Q) :
  length (rolling_mean w xs) = length xs.
Proof. unfold rolling_mean. now rewrite length_map, length_seq. Qed.

Lemma rolling_mean_nth (w i : nat) (xs : list Q) :
  (i < length xs)%nat ->
  nth i (rolling_mean w xs) None
  = if (length (window w i xs) <? w)%nat then None
    else Some (Qmean (window w i xs)).
Proof.
  intro L. unfold rolling_mean.
  set (f := fun i => if (length (window w i xs) <? w)%nat then None
                     else Some (Qmean (window w i xs))).
  rewrite (nth_indep _ None (f 0%nat))
    by now rewrite length_map, length_seq.
  rewrite map_nth, seq_nth by exact L. reflexivity.
Qed.

(** The rolling mean of the script is the one the spec words. *)
Lemma rolling_mean_spec (i : nat) (xs : list Q) :
  (i < length xs)%nat ->
  nth i (rolling_mean 12 xs) None = spec_rolling_mean xs i.
Proof.
  intro L. rewrite (rolling_mean_nth 12 i xs L), (window_length 12 i xs L).
  unfold spec_rolling_mean.
  destruct (11 <=? i)%nat eqn:E.
  - apply Nat.leb_le in E.
    replace (Nat.min 12 (S i) <? 12)%nat with false
      by (symmetry; apply Nat.ltb_ge; lia).
    rewrite (window_full 12 i xs L) by lia.
    replace (S i - 12)%nat with (i - 11)%nat by lia.
    unfold Qmean, Qlen. now rewrite length_map, length_seq.
  - apply Nat.leb_gt in E.
    replace (Nat.min 12 (S i) <? 12)%nat with true
      by (symmetry; apply Nat.ltb_lt; lia).
    reflexivity.
Qed.

Lemma zip_with_length {A B C : Type} (f : A -> B -> C) (l : list A)
    (l' : list B) :
  length (zip_with f l l') = Nat.min (length l) (length l').
Proof.
  revert l'. induction l as [|a t IH]; intros [|b t']; simpl; auto.
Qed.

Lemma zip_with_nth {A B C : Type} (f : A -> B -> C) (l : list A)
    (l' : list B) (i : nat) (a : A) (b : B) (c : C) :
  (i < length l)%nat -> (i < length l')%nat ->
  nth i (zip_with f l l') c = f (nth i l a) (nth i l' b).
Proof.
  revert l' i. induction l as [|x t IH]; intros [|y t'] [|i] L L';
    simpl in *; try lia; [reflexivity|].
  apply IH; lia.
Qed.

Lemma rolling_length (m : list MonthlyPoint) :
  length (rolling m) = length m.
Proof. unfold rolling. now rewrite rolling_mean_length, length_map. Qed.

Lemma deviation_length (m : list MonthlyPoint) :
  length (deviation m) = length m.
Proof.
  unfold deviation.
  rewrite zip_with_length, rolling_length, length_map. lia.
Qed.

Lemma rolling_nth (m : list MonthlyPoint) (i : nat) :
  (i < length m)%nat ->
  nth i (rolling m) None = spec_rolling_mean (map mean_temperature m) i.
Proof.
  intro L. unfold rolling. apply rolling_mean_spec.
  now rewrite length_map.
Qed.

Lemma deviation_nth (m : list MonthlyPoint) (i : nat) :
  (i < length m)%nat ->
  nth i (deviation m) None = spec_deviation (map mean_temperature m) i.
Proof.
  intro L. unfold deviation.
  rewrite (zip_with_nth sub_nan _ _ i 0 None None)
    by (rewrite ?rolling_length, ?length_map; exact L).
  rewrite (rolling_nth m i L). unfold spec_deviation, sub_nan.
  now destruct (spec_rolling_mean (map mean_temperature m) i).
Qed.

(** The deviation column, position by position. *)
Lemma deviation_as_map (m : list MonthlyPoint) :
  deviation m
  = map (spec_deviation (map mean_temperature m)) (seq 0 (length m)).
Proof.
  apply (nth_ext _ _ None (spec_deviation (map mean_temperature m) 0)).
  - now rewrite deviation_length, length_map, length_seq.
  - intros i L. rewrite deviation_length in L.
    rewrite map_nth, seq_nth by exact L.
    now apply deviation_nth.
Qed.

End Rolling.

(** ** Skipping the NaN entries *)

Section Dropna.

Lemma dropna_app (l l' : list (option Q)) :
  dropna (l ++ l') = dropna l ++ dropna l'.
Proof.
  induction l as [|[x|] t IH]; simpl; [reflexivity| |exact IH].
  now rewrite IH.
Qed.

Lemma dropna_map_none {A : Type} (f : A -> option Q) (l : list A) :
  (forall a, In a l -> f a = None) -> dropna (map f l) = [].
Proof.
  induction l as [|a t IH]; intro H; simpl; [reflexivity|].
  rewrite (H a) by now left. apply IH. intros b Hb. apply H. now right.
Qed.

Lemma dropna_map_some {A : Type} (f : A -> option Q) (g : A -> Q)
    (l : list A) :
  (forall a, In a l -> f a = Some (g a)) -> dropna (map f l) = map g l.
Proof.
  induction l as [|a t IH]; intro H; simpl; [reflexivity|].
  rewrite (H a) by now left. f_equal.
  apply IH. intros b Hb. apply H. now right.
Qed.

(** The defined deviations are those of the positions from 11 on. *)
Lemma defined_deviations (m : list MonthlyPoint) :
  dropna (deviation m)
  = map (fun i =>
           nth i (map mean_temperature m) 0
           - Qsum (map (fun j => nth j (map mean_temperature m) 0)
                       (seq (i - 11) 12)) / 12)
        (seq 11 (length m - 11)).
Proof.
  rewrite deviation_as_map.
  set (temps := map mean_temperature m).
  set (n := length m).
  assert (early : forall i, (i < 11)%nat -> spec_deviation temps i = None).
  { intros i Hi. unfold spec_deviation, spec_rolling_mean.
    now replace (11 <=? i)%nat with false
      by (symmetry; apply Nat.leb_gt; lia). }
  destruct (Nat.le_gt_cases n 11) as [L|G].
  - replace (n - 11)%nat with 0%nat by lia.
    apply dropna_map_none. intros i Hi. apply in_seq in Hi.
    apply early. lia.
  - replace n with (11 + (n - 11))%nat at 1 by lia.
    rewrite seq_app, map_app, dropna_app.
    rewrite dropna_map_none
      by (intros i Hi; apply in_seq in Hi; apply early; lia).
    rewrite app_nil_l. change (0 + 11)%nat with 11%nat.
    apply dropna_map_some. intros i Hi. apply in_seq in Hi.
    unfold spec_deviation, spec_rolling_mean.
    now replace (11 <=? i)%nat with true
      by (symmetry; apply Nat.leb_le; lia).
Qed.

Lemma defined_deviations_length (m : list MonthlyPoint) :
  length (dropna (deviation m)) = (length m - 11)%nat.
Proof. now rewrite defined_deviations, length_map, length_seq. Qed.

End Dropna.

(** ** Standard deviation and threshold *)

Section Threshold.

Lemma Qsum_squares_nonneg (c : Q) (xs : list Q) :
  0 <= Qsum (map (fun x => (x - c) * (x - c)) xs).
Proof.
  induction xs as [|x t IH]; simpl; [lra|].
  pose proof (Qsquare_nonneg (x - c)). lra.
Qed.

Lemma inject_nat_pos (n : nat) : (0 < n)%nat -> 0 < inject_Z (Z.of_nat n).
Proof.
  intro H. change 0 with (inject_Z 0). rewrite <- Zlt_Qlt. lia.
Qed.

Lemma var_nonneg (ddof : nat) (xs : list Q) (v : Q) :
  var ddof xs = Some v -> 0 <= v.
Proof.
  unfold var. destruct (length xs <=? ddof)%nat eqn:E; [discriminate|].
  intro H. injection H as <-. apply Nat.leb_gt in E.
  apply Qle_shift_div_l.
  - apply inject_nat_pos. lia.
  - rewrite Qmult_0_l. apply Qsum_squares_nonneg.
Qed.

(** The variance of the script is the sample variance of the spec. *)
Lemma var_sample (xs : list Q) :
  (1 < length xs)%nat ->
  exists v, var 1 xs = Some v /\ v == spec_sample_variance xs.
Proof.
  intro L. unfold var, spec_sample_variance.
  replace (length xs <=? 1)%nat with false
    by (symmetry; apply Nat.leb_gt; lia).
  eexists. split; [reflexivity|].
  assert (N : inject_Z (Z.of_nat (length xs - 1)) == Qlen xs - 1).
  { unfold Qlen. rewrite Nat2Z.inj_sub by lia.
    unfold Zminus. rewrite inject_Z_plus, inject_Z_opp. reflexivity. }
  now rewrite N.
Qed.

Lemma std_none (xs : list (option Q)) :
  std xs = None <-> (length (dropna xs) <= 1)%nat.
Proof.
  unfold std, var.
  destruct (length (dropna xs) <=? 1)%nat eqn:E; simpl.
  - apply Nat.leb_le in E. tauto.
  - apply Nat.leb_gt in E. split; [discriminate|lia].
Qed.

Lemma threshold_none (m : list MonthlyPoint) :
  threshold m = None <-> (length m <= 12)%nat.
Proof.
  unfold threshold.
  destruct (std (deviation m)) as [s|] eqn:E; simpl.
  - split; [discriminate|]. intro L.
    assert (N : std (deviation m) = None).
    { apply std_none. rewrite defined_deviations_length. lia. }
    congruence.
  - apply std_none in E. rewrite defined_deviations_length in E.
    split; [lia|reflexivity].
Qed.

Lemma threshold_some (m : list MonthlyPoint) (t : surd) :
  threshold m = Some t ->
  exists v, var 1 (dropna (deviation m)) = Some v
            /\ t = Sqrt (2 * 2 * v) /\ 0 <= v.
Proof.
  unfold threshold, std.
  destruct (var 1 (dropna (deviation m))) as [v|] eqn:E; simpl;
    [|discriminate].
  intro H. injection H as <-. exists v. repeat split.
  now apply var_nonneg in E.
Qed.

End Threshold.

(** ** Surds as real numbers

    The comparisons on surds are the comparisons of the real numbers they
    stand for. *)

Section SurdSemantics.

Local Open Scope R_scope.

Lemma Q2R_nonneg (x : Q) : (0 <= x)%Q -> 0 <= Q2R x.
Proof. intro H. apply Qle_Rle in H. now rewrite RMicromega.Q2R_0 in H. Qed.

Lemma Q2R_abs (x : Q) : Q2R (Qabs x) = Rabs (Q2R x).
Proof.
  apply Qabs_case; intro H.
  - apply Q2R_nonneg in H. now rewrite Rabs_right by now apply Rle_ge.
  - apply Qle_Rle in H. rewrite RMicromega.Q2R_0 in H.
    rewrite Q2R_opp. destruct H as [H|H].
    + now rewrite Rabs_left.
    + rewrite H, Rabs_R0. Lra.lra.
Qed.

Lemma surd_scale_val (s : surd) (k : Q) :
  (0 <= k)%Q -> (0 <= radicand s)%Q ->
  surd_val (surd_scale s k) = Q2R k * surd_val s.
Proof.
  destruct s as [v]. unfold surd_val, surd_scale, radicand.
  intros K V. apply Q2R_nonneg in K. apply Q2R_nonneg in V.
  rewrite !Q2R_mult.
  rewrite sqrt_mult; [|now apply Rmult_le_pos|exact V].
  now rewrite sqrt_square.
Qed.

Lemma gt_surd_val (x : Q) (s : surd) :
  (0 <= radicand s)%Q ->
  gt_surd x s = true <-> surd_val s < Q2R x.
Proof.
  intro V. unfold gt_surd, surd_val.
  rewrite andb_true_iff, !Qltb_lt.
  pose proof (Q2R_nonneg _ V) as V'.
  pose proof (sqrt_pos (Q2R (radicand s))) as P.
  split.
  - intros [X L]. apply Qlt_Rlt in X, L.
    rewrite RMicromega.Q2R_0 in X. rewrite Q2R_mult in L.
    rewrite <- (sqrt_square (Q2R x)) by Lra.lra.
    apply sqrt_lt_1; try assumption.
    apply Rmult_le_pos; Lra.lra.
  - intro L.
    assert (X : 0 < Q2R x) by Lra.lra.
    split.
    + apply Rlt_Qlt. now rewrite RMicromega.Q2R_0.
    + apply Rlt_Qlt. rewrite Q2R_mult.
      rewrite <- (sqrt_sqrt (Q2R (radicand s))) by assumption.
      apply Rmult_le_0_lt_compat; assumption.
Qed.

End SurdSemantics.

(** ** The anomaly mask *)

Section AnomalyMask.

Lemma exceeds_true (thr : option surd) (d : option Q) :
  exceeds thr d = true
  <-> exists x t, d = Some x /\ thr = Some t /\ gt_surd (Qabs x) t = true.
Proof.
  unfold exceeds. destruct d as [x|], thr as [t|]; split;
    try discriminate;
    try (intros [x' [t' [D [T _]]]]; discriminate).
  - intro H. now exists x, t.
  - intros [x' [t' [D [T G]]]]. injection D as ->. now injection T as ->.
Qed.

Lemma anomaly_mask_length (m : list MonthlyPoint) :
  length (anomaly_mask m) = length m.
Proof. unfold anomaly_mask. now rewrite length_map, deviation_length. Qed.

Lemma anomaly_mask_nth (m : list MonthlyPoint) (i : nat) :
  nth i (anomaly_mask m) false
  = exceeds (threshold m) (nth i (deviation m) None).
Proof.
  unfold anomaly_mask.
  change false with (exceeds (threshold m) None) at 1.
  apply map_nth.
Qed.

Lemma select_none {A : Type} (l : list A) (mask : list bool) :
  (forall b, In b mask -> b = false) -> select l mask = [].
Proof.
  revert mask. induction l as [|a t IH]; intros [|b mask] H; simpl; auto.
  rewrite (H b) by now left. apply IH. intros c Hc. apply H. now right.
Qed.

(** Rows selected by a mask, by position. *)
Lemma select_In {A : Type} (l : list A) (mask : list bool) (a : A) :
  In a (select l mask)
  <-> exists i, nth_error l i = Some a /\ nth_error mask i = Some true.
Proof.
  revert mask. induction l as [|x t IH]; intros [|b mask]; simpl.
  - split; [tauto|]. intros [[|i] [H _]]; discriminate.
  - split; [tauto|]. intros [[|i] [H _]]; discriminate.
  - split; [tauto|]. intros [[|i] [_ H]]; discriminate.
  - destruct b; simpl; rewrite IH; split.
    + intros [->|[i H]]; [now exists 0%nat | now exists (S i)].
    + intros [[|i] [H M]]; [left; simpl in H; congruence|].
      right. now exists i.
    + intros [i H]. now exists (S i).
    + intros [[|i] [H M]]; [simpl in M; congruence|]. now exists i.
Qed.

(** Without a threshold nothing is flagged. *)
Lemma no_threshold_no_anomaly (m : list MonthlyPoint) :
  threshold m = None -> anomalies m = [].
Proof.
  intro T. unfold anomalies. apply select_none.
  intros b Hb. unfold anomaly_mask in Hb. rewrite T in Hb.
  apply in_map_iff in Hb. destruct Hb as [d [E _]]. subst b.
  now destruct d.
Qed.

End AnomalyMask.

(** * The claims *)

(** C9.  Unit converter: a Celsius value is returned unchanged when Celsius
    is selected and as [c * 9/5 + 32] when Fahrenheit is selected.  The
    converter is a function on every value and unit (it cannot raise), and
    the [temperature] column of the filtered frame is this function applied
    to the [avg_temp_c] of each selected row. *)
Theorem unit_converter_correct (c : Q) :
  convert Celsius c = c
  /\ convert Fahrenheit c == (9 # 5) * c + 32
  /\ forall weather city unit,
       map temperature (filtered weather city unit)
       = map (fun r => convert unit (avg_temp_c r))
             (sort_values (select_city weather city)).
Proof.
  split; [reflexivity|]. split; [apply convert_fahrenheit|].
  intros weather city unit. unfold filtered. rewrite map_map. reflexivity.
Qed.

(** C6.  Trend direction of a non-empty series: "increasing" exactly when
    the last temperature is strictly greater than the first, "decreasing"
    otherwise; a series whose first and last values are equal is
    "decreasing". *)
Theorem trend_direction_correct (temps : list Q) :
  temps <> [] ->
  exists d,
    trend_direction temps = Ok d
    /\ (d = "increasing"%string <-> hd 0 temps < last temps 0)
    /\ (d = "decreasing"%string <-> last temps 0 <= hd 0 temps)
    /\ (hd 0 temps == last temps 0 -> d = "decreasing"%string).
Proof.
  intro H. rewrite (trend_direction_cons temps H).
  destruct (Qltb (hd 0 temps) (last temps 0)) eqn:E.
  - apply Qltb_lt in E. exists "increasing"%string.
    split; [reflexivity|]. repeat split; try tauto; try discriminate.
    + intro L. lra.
    + intro L. lra.
  - apply Qltb_nlt in E. exists "decreasing"%string.
    split; [reflexivity|]. repeat split; try tauto; try discriminate.
    intro L. lra.
Qed.

Lemma trend_direction_correct_witness :
  [5; 7; 5] <> []
  /\ exists d,
       trend_direction [5; 7; 5] = Ok d
       /\ (d = "increasing"%string <-> hd 0 [5; 7; 5] < last [5; 7; 5] 0)
       /\ (d = "decreasing"%string <-> last [5; 7; 5] 0 <= hd 0 [5; 7; 5])
       /\ (hd 0 [5; 7; 5] == last [5; 7; 5] 0 -> d = "decreasing"%string).
Proof.
  split; [discriminate|].
  apply (trend_direction_correct [5; 7; 5]). discriminate.
Defined.

(** C8.  Monthly aggregator: the output is ordered by period and holds
    exactly one point for each calendar (year, month) that occurs in the
    series, none for a month without data; the value of a point is the sum
    of the temperatures of all rows of that month divided by their number,
    so repeated values weigh equally. *)
Theorem monthly_aggregator_correct (rows : list Obs) :
  StronglySorted period_lt (map year_month (monthly rows))
  /\ NoDup (map year_month (monthly rows))
  /\ (forall k, In k (map year_month (monthly rows))
                <-> exists r, In r rows /\ to_period (ds r) = k)
  /\ Forall (fun p =>
               let temps := group (year_month p) rows in
               temps <> []
               /\ (forall x, In x temps
                             <-> exists r, In r rows
                                           /\ to_period (ds r) = year_month p
                                           /\ temperature r = x)
               /\ mean_temperature p
                  = Qsum temps / inject_Z (Z.of_nat (length temps)))
            (monthly rows).
Proof.
  rewrite monthly_keys.
  split; [apply group_keys_sorted|].
  split; [apply sorted_NoDup, group_keys_sorted|].
  split.
  - intro k. rewrite group_keys_In, in_map_iff. split.
    + intros [r [E H]]. now exists r.
    + intros [r [H E]]. now exists r.
  - apply Forall_forall. intros p Hp.
    destruct (monthly_In p rows Hp) as [[r [Hr Er]] M].
    split; [|split].
    + intro N.
      assert (I : In (temperature r) (group (year_month p) rows))
        by (apply group_In; now exists r).
      rewrite N in I. destruct I.
    + intro x. apply group_In.
    + exact M.
Qed.

(** The example of the spec: January holds 10 and 20, February holds 30. *)
Example monthly_example :
  map (fun p => (year_month p, Qred (mean_temperature p)))
      (monthly [ mkObs (mkDate 2020 1 5) 10; mkObs (mkDate 2020 1 9) 20;
                 mkObs (mkDate 2020 2 1) 30 ])
  = [ ((2020, 1)%Z, 15); ((2020, 2)%Z, 30) ].
Proof. reflexivity. Qed.

(** C5.  A daily series whose rows fall in fewer than 12 distinct calendar
    months has an empty anomaly set: the result is the empty list, not an
    exception. *)
Theorem few_months_no_anomaly (rows : list Obs) (months : list Period) :
  (forall r, In r rows -> In (to_period (ds r)) months) ->
  (length months < 12)%nat ->
  anomalies (monthly rows) = [].
Proof.
  intros H L. apply no_threshold_no_anomaly, threshold_none.
  rewrite monthly_length.
  assert (K : (length (group_keys (map (fun r => to_period (ds r)) rows))
               <= length months)%nat).
  { apply NoDup_incl_length.
    - apply sorted_NoDup, group_keys_sorted.
    - intros k Hk. apply (proj1 (group_keys_In _ _)) in Hk.
      apply (proj1 (in_map_iff _ _ _)) in Hk.
      destruct Hk as [r [E Hr]]. subst k. now apply H. }
  lia.
Qed.

Lemma few_months_no_anomaly_witness :
  anomalies (monthly [ mkObs (mkDate 2021 3 1) 20; mkObs (mkDate 2021 3 2) 30;
                       mkObs (mkDate 2021 4 1) 90 ]) = [].
Proof.
  apply (few_months_no_anomaly _ [ (2021, 3)%Z; (2021, 4)%Z ]).
  - intros r [<-|[<-|[<-|[]]]]; simpl; tauto.
  - simpl. lia.
Defined.

(** C1.  Anomaly detector, at every index [i] of a monthly series: the
    rolling mean is the mean of the values at indices [i-11 .. i] when
    [i >= 11] and undefined otherwise; the deviation is the value minus the
    rolling mean where that is defined; the defined deviations are exactly
    those of the indices from 11 on; the threshold is twice their (sample)
    standard deviation, and is undefined when fewer than two deviations are
    defined; the point is flagged exactly when its deviation is defined, the
    threshold is defined and the absolute deviation is strictly greater
    than the threshold; the anomalies are the flagged points. *)
Theorem anomaly_detector_correct (m : list MonthlyPoint) (i : nat) :
  (i < length m)%nat ->
  let temps := map mean_temperature m in
  let defined := dropna (deviation m) in
  nth i (rolling m) None = spec_rolling_mean temps i
  /\ nth i (deviation m) None = spec_deviation temps i
  /\ defined = map (fun j =>
                      nth j temps 0
                      - Qsum (map (fun k => nth k temps 0) (seq (j - 11) 12))
                        / 12)
                   (seq 11 (length m - 11))
  /\ match threshold m with
     | None => (length defined <= 1)%nat
     | Some t =>
         (1 < length defined)%nat
         /\ surd_val t = (2 * sqrt (Q2R (spec_sample_variance defined)))%R
     end
  /\ (nth i (anomaly_mask m) false = true
      <-> exists d t,
            nth i (deviation m) None = Some d
            /\ threshold m = Some t
            /\ (surd_val t < Rabs (Q2R d))%R)
  /\ (forall p, In p (anomalies m)
                <-> exists j, nth_error m j = Some p
                              /\ nth_error (anomaly_mask m) j = Some true).
Proof.
  intros L temps defined.
  split; [now apply rolling_nth|].
  split; [now apply deviation_nth|].
  split; [apply defined_deviations|].
  split; [|split].
  - destruct (threshold m) as [t|] eqn:T.
    + assert (N : ~ (length defined <= 1)%nat).
      { intro N. apply std_none in N. unfold threshold in T.
        fold defined in N. now rewrite N in T. }
      split; [lia|].
      destruct (threshold_some m t T) as [v [V [-> P]]].
      destruct (var_sample defined) as [v' [V' E]]; [lia|].
      fold defined in V. rewrite V in V'. injection V' as <-.
      change (Sqrt (2 * 2 * v)) with (surd_scale (Sqrt v) 2).
      rewrite surd_scale_val by (simpl; lra).
      unfold surd_val. simpl radicand.
      rewrite (Qeq_eqR _ _ E).
      f_equal. unfold Q2R. simpl. Lra.lra.
    + apply std_none. unfold threshold in T.
      now destruct (std (deviation m)).
  - rewrite anomaly_mask_nth, exceeds_true.
    split; intros [d [t [D [T G]]]]; exists d, t; repeat split; trivial.
    + destruct (threshold_some m t T) as [v [_ [-> P]]].
      rewrite <- Q2R_abs. apply gt_surd_val; [|exact G].
      simpl. lra.
    + destruct (threshold_some m t T) as [v [_ [-> P]]].
      apply gt_surd_val; [simpl; lra|]. now rewrite Q2R_abs.
  - intro p. apply select_In.
Qed.

Lemma anomaly_detector_correct_witness :
  (12 < length thirteen_points)%nat
  /\ nth 12 (rolling thirteen_points) None
     = spec_rolling_mean (map mean_temperature thirteen_points) 12
  /\ nth 12 (deviation thirteen_points) None
     = spec_deviation (map mean_temperature thirteen_points) 12.
Proof.
  assert (L : (12 < length thirteen_points)%nat) by (simpl; lia).
  split; [exact L|].
  destruct (anomaly_detector_correct thirteen_points 12 L) as [R [D _]].
  now split.
Defined.

(** C2, as stated, fails: in the series of twelve 10s followed by 100 the
    thirteenth point has rolling mean 17.5 and deviation 82.5, yet it is not
    flagged. *)
Lemma thirteen_points_flagged_cex :
  ~ (exists r d,
       nth 12 (rolling thirteen_points) None = Some r /\ r == 35 # 2
       /\ nth 12 (deviation thirteen_points) None = Some d /\ d == 165 # 2
       /\ nth 12 (anomaly_mask thirteen_points) false = true).
Proof.
  intros [r [d [_ [_ [_ [_ F]]]]]].
  vm_compute in F. discriminate.
Qed.

(** C2, amended.  In that series the thirteenth point has rolling mean 17.5
    and deviation 82.5.  Two deviations are defined, not one: the twelfth
    point already has a full window, with deviation 0.  Their sample
    variance is 3403.125, so the threshold is √13612.5 (about 116.67), the
    absolute deviation 82.5 does not exceed it, and no point of the series
    is flagged. *)
Theorem thirteen_points_not_flagged :
  exists r d t,
    nth 12 (rolling thirteen_points) None = Some r /\ r == 35 # 2
    /\ nth 12 (deviation thirteen_points) None = Some d /\ d == 165 # 2
    /\ Forall2 (fun x y => x == y)
               (dropna (deviation thirteen_points)) [0; 165 # 2]
    /\ threshold thirteen_points = Some t
    /\ radicand t == 27225 # 2
    /\ (Rabs (Q2R d) < surd_val t)%R
    /\ nth 12 (anomaly_mask thirteen_points) false = false
    /\ anomalies thirteen_points = [].
Proof.
  destruct (nth 12 (rolling thirteen_points) None) as [r|] eqn:R;
    [|vm_compute in R; discriminate].
  destruct (nth 12 (deviation thirteen_points) None) as [d|] eqn:D;
    [|vm_compute in D; discriminate].
  destruct (threshold thirteen_points) as [t|] eqn:T;
    [|vm_compute in T; discriminate].
  exists r, d, t.
  assert (Er : r == 35 # 2)
    by (vm_compute in R; injection R as <-; reflexivity).
  assert (Ed : d == 165 # 2)
    by (vm_compute in D; injection D as <-; reflexivity).
  assert (Et : radicand t == 27225 # 2)
    by (vm_compute in T; injection T as <-; reflexivity).
  split; [reflexivity|]. split; [exact Er|].
  split; [reflexivity|]. split; [exact Ed|].
  split; [vm_compute; repeat constructor|].
  split; [reflexivity|]. split; [exact Et|].
  split; [|split; reflexivity].
  rewrite <- Q2R_abs.
  assert (G : gt_surd (Qabs d) t = false).
  { unfold gt_surd. rewrite Et, Ed. reflexivity. }
  destruct (Rlt_le_dec (surd_val t) (Q2R (Qabs d))) as [Lt|[Lt|Eq]].
  - apply gt_surd_val in Lt; [congruence|]. rewrite Et. lra.
  - exact Lt.
  - exfalso.
    assert (S : (surd_val t * surd_val t = Q2R (radicand t))%R).
    { unfold surd_val. apply sqrt_sqrt. apply Q2R_nonneg.
      rewrite Et. lra. }
    rewrite <- Eq, <- Q2R_mult in S. apply eqR_Qeq in S.
    rewrite Et, Ed in S. vm_compute in S. discriminate.
Qed.

(** ** The run on a degenerate selection *)

Section DegenerateSelection.

Variable forecast_service : list (Date * Q) -> nat -> result (list (Date * Q)).

Lemma run_empty (weather : list WeatherRow) (city : string) (unit : Unit) :
  select_city weather city = [] ->
  run forecast_service weather city unit = Raise IndexError.
Proof.
  intro H. unfold run. now rewrite (filtered_nil weather city unit H).
Qed.

Lemma run_forecast_raises (weather : list WeatherRow) (city : string)
    (unit : Unit) (e : exn) :
  select_city weather city <> [] ->
  forecast_service (prophet_df (filtered weather city unit)) 365%nat
  = Raise e ->
  run forecast_service weather city unit = Raise e.
Proof.
  intros H F. unfold run.
  rewrite trend_direction_cons.
  - simpl. now rewrite F.
  - intro N. apply map_eq_nil in N.
    now apply (filtered_not_nil weather city unit H).
Qed.

End DegenerateSelection.

(** C3, as stated, fails: for a city without any daily record the run does
    not return empty outputs, it ends with an exception, even when the
    forecasting collaborator never fails. *)
Lemma empty_selection_degrades_cex :
  select_city sample_weather "Oslo" = []
  /\ ~ (exists out,
          run lenient_forecast sample_weather "Oslo" Celsius = Ok out).
Proof.
  split; [reflexivity|].
  intros [out H]. vm_compute in H. discriminate.
Qed.

(** C3, amended.  For a selection whose city has no daily record, the mean,
    the maximum and the minimum are undefined (NaN) and the anomaly set of
    the empty frame is empty, but the run then ends with an uncaught
    [IndexError] at the trend-direction step and produces no output.  For a
    selection with records, an exception raised by the forecasting
    collaborator is not caught either: the run ends with that exception. *)
Theorem degenerate_selection_raises
    (forecast_service : list (Date * Q) -> nat -> result (list (Date * Q)))
    (weather : list WeatherRow) (city : string) (unit : Unit) :
  (select_city weather city = [] ->
   let temps := map temperature (filtered weather city unit) in
   round2 (mean temps) = None
   /\ round2 (maximum temps) = None
   /\ round2 (minimum temps) = None
   /\ anomalies (monthly (filtered weather city unit)) = []
   /\ trend_direction temps = Raise IndexError
   /\ run forecast_service weather city unit = Raise IndexError)
  /\ (forall e,
        select_city weather city <> [] ->
        forecast_service (prophet_df (filtered weather city unit)) 365%nat
        = Raise e ->
        run forecast_service weather city unit = Raise e).
Proof.
  split.
  - intro H. simpl. rewrite (run_empty forecast_service weather city unit H).
    rewrite (filtered_nil weather city unit H). repeat split.
  - intros e H F. now apply run_forecast_raises.
Qed.

Lemma degenerate_selection_raises_witness :
  run strict_forecast sample_weather "Oslo" Fahrenheit = Raise IndexError
  /\ run strict_forecast (tl sample_weather) "Pune" Fahrenheit
     = Raise ValueError.
Proof.
  split.
  - apply (proj1 (degenerate_selection_raises strict_forecast sample_weather
                    "Oslo" Fahrenheit)).
    reflexivity.
  - apply (proj2 (degenerate_selection_raises strict_forecast
                    (tl sample_weather) "Pune" Fahrenheit)).
    + discriminate.
    + reflexivity.
Defined.

(** ** Order statistics *)

Section OrderStatistics.

Lemma insert_sorted_perm (x : Q) (l : list Q) :
  Permutation (insert_sorted x l) (x :: l).
Proof.
  induction l as [|y t IH]; simpl; [reflexivity|].
  destruct (Qle_bool x y); [reflexivity|].
  rewrite IH. apply perm_swap.
Qed.

Lemma sort_perm (l : list Q) : Permutation (sort l) l.
Proof.
  induction l as [|x t IH]; simpl; [reflexivity|].
  rewrite insert_sorted_perm. now constructor.
Qed.

Lemma sort_length (l : list Q) : length (sort l) = length l.
Proof. apply Permutation_length, sort_perm. Qed.

Lemma insert_sorted_sorted (x : Q) (l : list Q) :
  StronglySorted Qle l -> StronglySorted Qle (insert_sorted x l).
Proof.
  induction 1 as [|y t S IH F]; simpl.
  - constructor; constructor.
  - destruct (Qle_bool x y) eqn:E.
    + apply Qle_bool_iff in E.
      constructor; [now constructor|].
      constructor; [exact E|].
      apply Forall_forall. intros z Hz. rewrite Forall_forall in F.
      apply Qle_trans with y; [exact E | now apply F].
    + assert (L : y <= x).
      { apply Qlt_le_weak, Qnot_le_lt. intro L.
        apply Qle_bool_iff in L. congruence. }
      constructor; [exact IH|].
      apply (Permutation_Forall (Permutation_sym (insert_sorted_perm x t))).
      now constructor.
Qed.

Lemma sort_sorted (l : list Q) : StronglySorted Qle (sort l).
Proof.
  induction l as [|x t IH]; simpl; [constructor|].
  now apply insert_sorted_sorted.
Qed.

(** In an increasing list a later position holds a larger value. *)
Lemma sorted_nth_le (s : list Q) :
  StronglySorted Qle s ->
  forall i j, (i <= j)%nat -> (j < length s)%nat -> nth i s 0 <= nth j s 0.
Proof.
  induction 1 as [|x t S IH F]; intros i j Hij Hj; [simpl in Hj; lia|].
  destruct i as [|i], j as [|j]; simpl in *; try lia.
  - apply Qle_refl.
  - rewrite Forall_forall in F. apply F, nth_In. lia.
  - apply IH; lia.
Qed.

(** A list of equal values stays one under sorting. *)
Lemma sort_constant (a : list Q) (v : Q) (i : nat) :
  (forall x, In x a -> x == v) -> (i < length a)%nat ->
  nth i (sort a) 0 == v.
Proof.
  intros H L. apply H.
  apply (Permutation_in _ (sort_perm a)).
  apply nth_In. now rewrite sort_length.
Qed.

End OrderStatistics.

(** ** The percentile *)

Section Percentile.

Lemma inject_Z_succ (z : Z) : inject_Z (z + 1) == inject_Z z + 1.
Proof. now rewrite inject_Z_plus. Qed.

Lemma inject_nat_pred (n : nat) :
  (1 <= n)%nat -> inject_Z (Z.of_nat (n - 1)) == inject_Z (Z.of_nat n) - 1.
Proof.
  intro H. rewrite Nat2Z.inj_sub by exact H.
  unfold Z.sub. now rewrite inject_Z_plus, inject_Z_opp.
Qed.

Lemma fraction_bounds (x : Q) :
  0 <= x - inject_Z (Qfloor x) /\ x - inject_Z (Qfloor x) < 1.
Proof.
  pose proof (Qfloor_le x) as L. pose proof (Qlt_floor x) as U.
  rewrite inject_Z_succ in U. split; lra.
Qed.

Lemma floor_bounds (x : Q) (k : Z) :
  0 <= x -> x <= inject_Z k -> (0 <= Qfloor x <= k)%Z.
Proof.
  intros L U. split.
  - rewrite <- (Qfloor_Z 0). now apply Qfloor_resp_le.
  - rewrite <- (Qfloor_Z k). now apply Qfloor_resp_le.
Qed.

Lemma ceiling_lt (x : Q) : inject_Z (Qceiling x) - 1 < x.
Proof.
  pose proof (Qceiling_lt x) as U.
  unfold Z.sub in U. rewrite inject_Z_plus, inject_Z_opp in U. exact U.
Qed.

Lemma ceiling_of_integer (x : Q) :
  x - inject_Z (Qfloor x) == 0 -> Qceiling x = Qfloor x.
Proof.
  intro E.
  pose proof (Qle_floor_ceiling x) as L.
  pose proof (ceiling_lt x) as U.
  assert (F : inject_Z (Qceiling x) < inject_Z (Qfloor x + 1)).
  { rewrite inject_Z_succ. lra. }
  rewrite <- Zlt_Qlt in F. rewrite <- Zle_Qle in L. lia.
Qed.

Lemma ceiling_of_fraction (x : Q) :
  0 < x - inject_Z (Qfloor x) -> Qceiling x = (Qfloor x + 1)%Z.
Proof.
  intro E.
  pose proof (Qle_ceiling x) as L.
  pose proof (ceiling_lt x) as U.
  pose proof (Qlt_floor x) as V.
  rewrite inject_Z_succ in V.
  assert (F : inject_Z (Qfloor x) < inject_Z (Qceiling x)) by lra.
  assert (G : inject_Z (Qceiling x) < inject_Z (Qfloor x + 2)).
  { rewrite inject_Z_plus. change (inject_Z 2) with 2%Q. lra. }
  rewrite <- Zlt_Qlt in F, G. lia.
Qed.

Lemma virtual_index_bounds (n : nat) (q : Q) :
  (1 <= n)%nat -> 0 <= q -> q <= 100 ->
  0 <= virtual_index n q
  /\ virtual_index n q <= inject_Z (Z.of_nat (n - 1)).
Proof.
  intros N L U. rewrite (inject_nat_pred n N). unfold virtual_index.
  assert (P : 0 <= inject_Z (Z.of_nat n) - 1).
  { rewrite <- (inject_nat_pred n N).
    change 0 with (inject_Z 0). rewrite <- Zle_Qle. lia. }
  set (M := inject_Z (Z.of_nat n) - 1) in *.
  assert (A : 0 <= q / 100) by (apply Qle_shift_div_l; lra).
  assert (B : q / 100 <= 1) by (apply Qle_shift_div_r; lra).
  set (p := q / 100) in *. split; nra.
Qed.

Lemma virtual_index_mono (n : nat) (q q' : Q) :
  (1 <= n)%nat -> q <= q' -> virtual_index n q <= virtual_index n q'.
Proof.
  intros N L. unfold virtual_index.
  assert (P : 0 <= inject_Z (Z.of_nat n) - 1).
  { rewrite <- (inject_nat_pred n N).
    change 0 with (inject_Z 0). rewrite <- Zle_Qle. lia. }
  set (M := inject_Z (Z.of_nat n) - 1) in *.
  assert (A : q / 100 <= q' / 100).
  { unfold Qdiv. apply Qmult_le_compat_r; [exact L|]. discriminate. }
  set (p := q / 100) in *. set (p' := q' / 100) in *. nra.
Qed.

Lemma lerp_bounds (a b t : Q) :
  a <= b -> 0 <= t -> t <= 1 -> a <= lerp a b t /\ lerp a b t <= b.
Proof. intros. unfold lerp. split; nra. Qed.

Lemma lerp_mono (a b t t' : Q) :
  a <= b -> t <= t' -> lerp a b t <= lerp a b t'.
Proof. intros. unfold lerp. nra. Qed.

#[export] Instance lerp_comp : Proper (Qeq ==> Qeq ==> Qeq ==> Qeq) lerp.
Proof. intros a a' A b b' B t t' T. unfold lerp. now rewrite A, B, T. Qed.

(** The value numpy computes on a non-empty array. *)
Lemma percentile_value (a : list Q) (q : Q) :
  a <> [] ->
  percentile a q
  = Ok (let vi := virtual_index (length a) q in
        let lo := Z.to_nat (Qfloor vi) in
        lerp (nth lo (sort a) 0)
             (nth (Nat.min (lo + 1) (length a - 1)) (sort a) 0)
             (vi - inject_Z (Qfloor vi))).
Proof. destruct a; [congruence|reflexivity]. Qed.

(** Positions used by the interpolation lie inside the array. *)
Lemma percentile_positions (n : nat) (q : Q) :
  (1 <= n)%nat -> 0 <= q -> q <= 100 ->
  let lo := Z.to_nat (Qfloor (virtual_index n q)) in
  (0 <= Qfloor (virtual_index n q))%Z
  /\ (lo <= n - 1)%nat
  /\ (lo <= Nat.min (lo + 1) (n - 1))%nat
  /\ (Nat.min (lo + 1) (n - 1) < n)%nat.
Proof.
  intros N L U lo.
  destruct (virtual_index_bounds n q N L U) as [A B].
  destruct (floor_bounds _ _ A B) as [F G].
  assert (lo <= n - 1)%nat by (unfold lo; lia).
  repeat split; solve [lia | exact F].
Qed.

(** numpy's percentile is the interpolation the spec words, taken on the
    sorted values. *)
Lemma percentile_spec (a : list Q) (q : Q) :
  a <> [] -> 0 <= q -> q <= 100 ->
  exists v, percentile a q = Ok v /\ v == spec_percentile (sort a) q.
Proof.
  intros H L U. rewrite (percentile_value a q H).
  eexists. split; [reflexivity|]. cbv zeta.
  unfold spec_percentile, Qlen. rewrite sort_length.
  change (q / 100 * (inject_Z (Z.of_nat (length a)) - 1))
    with (virtual_index (length a) q).
  assert (N : (1 <= length a)%nat)
    by (destruct a; [congruence | simpl; lia]).
  destruct (virtual_index_bounds _ q N L U) as [A B].
  destruct (percentile_positions _ q N L U) as [F [P1 [P2 P3]]].
  set (vi := virtual_index (length a) q) in *.
  destruct (fraction_bounds vi) as [G0 G1].
  destruct (Qlt_le_dec 0 (vi - inject_Z (Qfloor vi))) as [Pos|Zero].
  - rewrite (ceiling_of_fraction vi Pos).
    assert (K : inject_Z (Qfloor vi) < inject_Z (Z.of_nat (length a - 1)))
      by lra.
    rewrite <- Zlt_Qlt in K.
    replace (Z.to_nat (Qfloor vi + 1)) with (Z.to_nat (Qfloor vi) + 1)%nat
      by lia.
    replace (Nat.min (Z.to_nat (Qfloor vi) + 1) (length a - 1))
      with (Z.to_nat (Qfloor vi) + 1)%nat by lia.
    unfold lerp. ring.
  - assert (E : vi - inject_Z (Qfloor vi) == 0) by lra.
    rewrite (ceiling_of_integer vi E). unfold lerp. rewrite E. ring.
Qed.

(** The percentile lies between the two values it interpolates. *)
Lemma percentile_between (a : list Q) (q : Q) :
  a <> [] -> 0 <= q -> q <= 100 ->
  exists v,
    percentile a q = Ok v
    /\ nth (Z.to_nat (Qfloor (virtual_index (length a) q))) (sort a) 0 <= v
    /\ v <= nth (Nat.min (Z.to_nat (Qfloor (virtual_index (length a) q)) + 1)
                         (length a - 1)) (sort a) 0.
Proof.
  intros H L U. rewrite (percentile_value a q H).
  eexists. split; [reflexivity|]. cbv zeta.
  assert (N : (1 <= length a)%nat)
    by (destruct a; [congruence | simpl; lia]).
  destruct (percentile_positions _ q N L U) as [F [P1 [P2 P3]]].
  destruct (fraction_bounds (virtual_index (length a) q)) as [G0 G1].
  apply lerp_bounds; [|exact G0|lra].
  apply sorted_nth_le; [apply sort_sorted|exact P2|].
  now rewrite sort_length.
Qed.

(** A larger rank gives a larger percentile. *)
Lemma percentile_mono (a : list Q) (q q' : Q) :
  a <> [] -> 0 <= q -> q <= q' -> q' <= 100 ->
  exists v v',
    percentile a q = Ok v /\ percentile a q' = Ok v' /\ v <= v'.
Proof.
  intros H L M U.
  assert (N : (1 <= length a)%nat)
    by (destruct a; [congruence | simpl; lia]).
  assert (U0 : q <= 100) by lra. assert (L' : 0 <= q') by lra.
  destruct (percentile_between a q H L U0) as [v [V [Lo Hi]]].
  destruct (percentile_between a q' H L' U) as [v' [V' [Lo' Hi']]].
  exists v, v'. split; [exact V|]. split; [exact V'|].
  destruct (percentile_positions _ q N L U0) as [F [P1 [P2 P3]]].
  destruct (percentile_positions _ q' N L' U) as [F' [P1' [P2' P3']]].
  pose proof (virtual_index_mono (length a) q q' N M) as VM.
  pose proof (Qfloor_resp_le _ _ VM) as FM.
  destruct (Z.eq_dec (Qfloor (virtual_index (length a) q))
                     (Qfloor (virtual_index (length a) q'))) as [Same|Diff].
  - rewrite (percentile_value a q H) in V.
    rewrite (percentile_value a q' H) in V'.
    cbv zeta in V, V'. apply Ok_inj in V, V'. rewrite <- V, <- V'.
    rewrite <- Same. apply lerp_mono.
    + apply sorted_nth_le; [apply sort_sorted|exact P2|].
      now rewrite sort_length.
    + lra.
  - apply Qle_trans with (1 := Hi). apply Qle_trans with (2 := Lo').
    apply sorted_nth_le; [apply sort_sorted|lia|].
    rewrite sort_length. lia.
Qed.

(** On equal values every percentile is that value. *)
Lemma percentile_constant (a : list Q) (q v : Q) :
  a <> [] -> 0 <= q -> q <= 100 ->
  (forall x, In x a -> x == v) ->
  exists p, percentile a q = Ok p /\ p == v.
Proof.
  intros H L U C. rewrite (percentile_value a q H).
  eexists. split; [reflexivity|]. cbv zeta.
  assert (N : (1 <= length a)%nat)
    by (destruct a; [congruence | simpl; lia]).
  destruct (percentile_positions _ q N L U) as [F [P1 [P2 P3]]].
  rewrite (sort_constant a v _ C) by lia.
  rewrite (sort_constant a v _ C) by lia.
  unfold lerp. ring.
Qed.

End Percentile.

(** ** Classification of days *)

Section ExtremeDays.

Lemma heatwave_days_In (rows : list Obs) (h : Q) (r : Obs) :
  In r (heatwave_days rows h) <-> In r rows /\ h < temperature r.
Proof.
  unfold heatwave_days, is_heatwave. now rewrite filter_In, Qltb_lt.
Qed.

Lemma coldwave_days_In (rows : list Obs) (c : Q) (r : Obs) :
  In r (coldwave_days rows c) <-> In r rows /\ temperature r < c.
Proof.
  unfold coldwave_days, is_coldwave. now rewrite filter_In, Qltb_lt.
Qed.

Lemma filter_none {A : Type} (f : A -> bool) (l : list A) :
  (forall x, In x l -> f x = false) -> filter f l = [].
Proof.
  induction l as [|x t IH]; intro H; simpl; [reflexivity|].
  rewrite (H x) by now left. apply IH. intros y Hy. apply H. now right.
Qed.

Lemma temperatures_not_nil (rows : list Obs) :
  rows <> [] -> map temperature rows <> [].
Proof. intros H E. apply map_eq_nil in E. contradiction. Qed.

Lemma extreme_events_value (rows : list Obs) (h c : Q) :
  heat_threshold rows = Ok h -> cold_threshold rows = Ok c ->
  extreme_events rows
  = Ok (mkExtreme h c (length (heatwave_days rows h))
                  (length (coldwave_days rows c))).
Proof. intros H C. unfold extreme_events. now rewrite H, C. Qed.

End ExtremeDays.

(** C4.  Extreme event classifier on a non-empty series: the heat threshold
    is the 95th and the cold threshold the 5th percentile of the
    temperatures, each obtained by linear interpolation between the order
    statistics (the temperatures in increasing order); a day is a heatwave
    day exactly when its temperature is strictly above the heat threshold
    and a coldwave day exactly when it is strictly below the cold
    threshold; the tracker reports the two counts and the two thresholds. *)
Theorem extreme_event_classifier_correct (rows : list Obs) :
  rows <> [] ->
  exists s h c,
    Permutation s (map temperature rows)
    /\ StronglySorted Qle s
    /\ heat_threshold rows = Ok h /\ h == spec_percentile s 95
    /\ cold_threshold rows = Ok c /\ c == spec_percentile s 5
    /\ (forall r, In r (heatwave_days rows h)
                  <-> In r rows /\ h < temperature r)
    /\ (forall r, In r (coldwave_days rows c)
                  <-> In r rows /\ temperature r < c)
    /\ extreme_events rows
       = Ok (mkExtreme h c (length (heatwave_days rows h))
                       (length (coldwave_days rows c))).
Proof.
  intro H. apply temperatures_not_nil in H.
  destruct (percentile_spec (map temperature rows) 95 H) as [h [Hh Eh]];
    [lra|lra|].
  destruct (percentile_spec (map temperature rows) 5 H) as [c [Hc Ec]];
    [lra|lra|].
  exists (sort (map temperature rows)), h, c.
  split; [apply sort_perm|]. split; [apply sort_sorted|].
  split; [exact Hh|]. split; [exact Eh|].
  split; [exact Hc|]. split; [exact Ec|].
  split; [intro r; apply heatwave_days_In|].
  split; [intro r; apply coldwave_days_In|].
  now apply extreme_events_value.
Qed.

Lemma extreme_event_classifier_correct_witness :
  three_days <> []
  /\ exists s h c,
       Permutation s (map temperature three_days)
       /\ StronglySorted Qle s
       /\ heat_threshold three_days = Ok h /\ h == spec_percentile s 95
       /\ cold_threshold three_days = Ok c /\ c == spec_percentile s 5
       /\ (forall r, In r (heatwave_days three_days h)
                     <-> In r three_days /\ h < temperature r)
       /\ (forall r, In r (coldwave_days three_days c)
                     <-> In r three_days /\ temperature r < c)
       /\ extreme_events three_days
          = Ok (mkExtreme h c (length (heatwave_days three_days h))
                          (length (coldwave_days three_days c))).
Proof.
  split; [discriminate|].
  apply (extreme_event_classifier_correct three_days). discriminate.
Defined.

(** The example of the spec: on the temperatures 1 to 100 the thresholds are
    95.05 and 5.95, and five days lie strictly beyond each. *)
Example extreme_events_hundred_days :
  exists e,
    extreme_events hundred_days = Ok e
    /\ heat e == 1901 # 20 /\ cold e == 119 # 20
    /\ n_heatwave_days e = 5%nat /\ n_coldwave_days e = 5%nat.
Proof.
  eexists. split; [vm_compute; reflexivity|].
  repeat split; reflexivity.
Qed.

(** On a non-empty series both thresholds exist and are ordered. *)
Lemma thresholds_ordered_nonempty (rows : list Obs) :
  rows <> [] ->
  exists h c,
    heat_threshold rows = Ok h
    /\ cold_threshold rows = Ok c
    /\ c <= h
    /\ (forall v,
          (forall r, In r rows -> temperature r == v) -> h == v /\ c == v).
Proof.
  intro H. apply temperatures_not_nil in H.
  destruct (percentile_mono (map temperature rows) 5 95 H)
    as [c [h [Hc [Hh L]]]]; [lra|lra|lra|].
  exists h, c.
  split; [exact Hh|]. split; [exact Hc|]. split; [exact L|].
  intros v C.
  assert (C' : forall x, In x (map temperature rows) -> x == v).
  { intros x Hx. apply (proj1 (in_map_iff _ _ _)) in Hx.
    destruct Hx as [r [<- Hr]]. now apply C. }
  destruct (percentile_constant _ 95 v H) as [h' [Hh' Eh]];
    [lra|lra|exact C'|].
  destruct (percentile_constant _ 5 v H) as [c' [Hc' Ec]];
    [lra|lra|exact C'|].
  unfold heat_threshold in Hh. unfold cold_threshold in Hc.
  rewrite Hh in Hh'. rewrite Hc in Hc'.
  apply Ok_inj in Hh', Hc'. subst h' c'. now split.
Qed.

(** C7.  For every daily series, whenever the two thresholds exist the cold
    threshold is at most the heat threshold, so no day is both a heatwave
    day and a coldwave day; when all temperatures are equal both thresholds
    are that value and, the comparisons being strict, no day is flagged in
    either direction.  The thresholds exist for every non-empty series. *)
Theorem thresholds_ordered (rows : list Obs) :
  (forall h c,
     heat_threshold rows = Ok h -> cold_threshold rows = Ok c ->
     c <= h
     /\ (forall r, ~ (is_heatwave h r = true /\ is_coldwave c r = true))
     /\ (forall r, In r (heatwave_days rows h)
                   -> ~ In r (coldwave_days rows c))
     /\ (forall v,
           (forall r, In r rows -> temperature r == v) ->
           h == v /\ c == v
           /\ heatwave_days rows h = [] /\ coldwave_days rows c = []))
  /\ (rows <> [] ->
      exists h c, heat_threshold rows = Ok h /\ cold_threshold rows = Ok c).
Proof.
  split.
  - intros h c Hh Hc.
    assert (N : rows <> []).
    { intro E. subst rows. discriminate Hh. }
    destruct (thresholds_ordered_nonempty rows N)
      as [h' [c' [Hh' [Hc' [L K]]]]].
    rewrite Hh in Hh'. rewrite Hc in Hc'.
    apply Ok_inj in Hh', Hc'. subst h' c'.
    split; [exact L|].
    assert (B : forall r,
               ~ (is_heatwave h r = true /\ is_coldwave c r = true)).
    { intros r [A B]. unfold is_heatwave, is_coldwave in *.
      apply Qltb_lt in A, B. lra. }
    split; [exact B|]. split.
    + intros r A C. apply (B r).
      unfold heatwave_days, coldwave_days in *.
      apply filter_In in A, C. tauto.
    + intros v C. destruct (K v C) as [Eh Ec].
      split; [exact Eh|]. split; [exact Ec|]. split.
      * apply filter_none. intros r Hr. unfold is_heatwave.
        apply Qltb_nlt. rewrite (C r Hr), Eh. apply Qle_refl.
      * apply filter_none. intros r Hr. unfold is_coldwave.
        apply Qltb_nlt. rewrite (C r Hr), Ec. apply Qle_refl.
  - intro N.
    destruct (thresholds_ordered_nonempty rows N) as [h [c [Hh [Hc _]]]].
    now exists h, c.
Qed.

Lemma thresholds_ordered_witness :
  constant_days <> []
  /\ (forall r, In r constant_days -> temperature r == 20)
  /\ exists h c,
       heat_threshold constant_days = Ok h
       /\ cold_threshold constant_days = Ok c
       /\ c <= h
       /\ h == 20 /\ c == 20
       /\ heatwave_days constant_days h = []
       /\ coldwave_days constant_days c = [].
Proof.
  assert (N : constant_days <> []) by discriminate.
  assert (C : forall r, In r constant_days -> temperature r == 20).
  { intros r [<-|[<-|[]]]; reflexivity. }
  split; [exact N|]. split; [exact C|].
  destruct (thresholds_ordered constant_days) as [A B].
  destruct (B N) as [h [c [Hh Hc]]].
  destruct (A h c Hh Hc) as [L [_ [_ K]]].
  destruct (K 20 C) as [Eh [Ec [Fh Fc]]].
  exists h, c. repeat split; assumption.
Defined.

(** ** Columns related entry by entry *)

Section Pointwise.

Context {A B : Type} (R : A -> B -> Prop).

Lemma Forall2_firstn (n : nat) (l : list A) (l' : list B) :
  Forall2 R l l' -> Forall2 R (firstn n l) (firstn n l').
Proof.
  intro H. revert n. induction H as [|a b t t' r H IH]; intros [|n];
    simpl; constructor; auto.
Qed.

Lemma Forall2_skipn (n : nat) (l : list A) (l' : list B) :
  Forall2 R l l' -> Forall2 R (skipn n l) (skipn n l').
Proof.
  intro H. revert n. induction H as [|a b t t' r H IH]; intros [|n];
    simpl; try constructor; auto.
Qed.

Lemma Forall2_map_same {I : Type} (f : I -> A) (g : I -> B) (l : list I) :
  (forall i, In i l -> R (f i) (g i)) -> Forall2 R (map f l) (map g l).
Proof.
  induction l as [|i t IH]; intro H; simpl; constructor.
  - apply H. now left.
  - apply IH. intros j Hj. apply H. now right.
Qed.

Lemma Forall2_dropna (R' : Q -> Q -> Prop) (l l' : list (option Q)) :
  Forall2 (opt_rel R') l l' -> Forall2 R' (dropna l) (dropna l').
Proof.
  induction 1 as [|[x|] [y|] t t' r H IH]; simpl in *;
    try contradiction; try constructor; auto.
Qed.

End Pointwise.

(** ** Statistics of an affinely transformed column *)

Section Affine.

Variables k b : Q.

Lemma Qlen_cons (y : Q) (t : list Q) : Qlen (y :: t) == Qlen t + 1.
Proof.
  unfold Qlen. cbn [length]. rewrite Nat2Z.inj_succ.
  unfold Z.succ. now rewrite inject_Z_plus.
Qed.

Lemma Qlen_nonzero (ys : list Q) : ys <> [] -> ~ Qlen ys == 0.
Proof.
  intros H E.
  assert (P : 0 < Qlen ys).
  { apply inject_nat_pos. destruct ys; [congruence | simpl; lia]. }
  lra.
Qed.

Lemma Qsum_affine (xs ys : list Q) :
  Forall2 (affine k b) xs ys -> Qsum xs == k * Qsum ys + b * Qlen ys.
Proof.
  induction 1 as [|x y t t' r H IH].
  - unfold Qlen. simpl. ring.
  - rewrite Qlen_cons. simpl. unfold affine in r. rewrite r, IH. ring.
Qed.

Lemma Qmean_affine (xs ys : list Q) :
  Forall2 (affine k b) xs ys -> ys <> [] -> Qmean xs == k * Qmean ys + b.
Proof.
  intros H N. unfold Qmean.
  assert (L : Qlen xs = Qlen ys)
    by (unfold Qlen; now rewrite (Forall2_length H)).
  rewrite L, (Qsum_affine xs ys H).
  field. now apply Qlen_nonzero.
Qed.

Lemma rolling_mean_affine (w : nat) (xs ys : list Q) :
  (1 <= w)%nat -> Forall2 (affine k b) xs ys ->
  Forall2 (opt_rel (affine k b)) (rolling_mean w xs) (rolling_mean w ys).
Proof.
  intros W H. unfold rolling_mean. rewrite (Forall2_length H).
  apply Forall2_map_same. intros i _.
  assert (F : Forall2 (affine k b) (window w i xs) (window w i ys)).
  { unfold window. now apply Forall2_skipn, Forall2_firstn. }
  rewrite (Forall2_length F).
  destruct (length (window w i ys) <? w)%nat eqn:E; simpl; [exact I|].
  apply Qmean_affine; [exact F|].
  apply Nat.ltb_ge in E. intro N. rewrite N in E. simpl in E. lia.
Qed.

End Affine.

(** ** The anomaly mask under a change of scale *)

Section Scale.

Variables k b : Q.
Hypothesis k_pos : 0 < k.

Lemma bool_eq_iff (x y : bool) : (x = true <-> y = true) -> x = y.
Proof. destruct x, y; intuition congruence. Qed.

Lemma deviation_scaled (xs ys : list Q) (rx ry : list (option Q)) :
  Forall2 (affine k b) xs ys ->
  Forall2 (opt_rel (affine k b)) rx ry ->
  Forall2 (opt_rel (scaled k)) (zip_with sub_nan xs rx)
          (zip_with sub_nan ys ry).
Proof.
  intro H. revert rx ry.
  induction H as [|x y t t' r H IH]; intros rx ry F; [constructor|].
  inversion F as [|u v tx ty ruv F' Eu Ev]; subst; cbn [zip_with];
    constructor; [|now apply IH].
  destruct u as [u|], v as [v|]; cbn in ruv; try contradiction;
    cbn [sub_nan option_map opt_rel]; [|exact I].
  unfold scaled, affine in *. rewrite r, ruv. ring.
Qed.

Lemma Qsum_squares_scaled (xs ys : list Q) (m m' : Q) :
  Forall2 (scaled k) xs ys -> m == k * m' ->
  Qsum (map (fun x => (x - m) * (x - m)) xs)
  == k * k * Qsum (map (fun y => (y - m') * (y - m')) ys).
Proof.
  intros H M. induction H as [|x y t t' r H IH]; simpl; [ring|].
  unfold scaled in r. rewrite IH, r, M. ring.
Qed.

Lemma var_scaled (xs ys : list Q) :
  Forall2 (scaled k) xs ys ->
  opt_rel (fun v v' => v == k * k * v') (var 1 xs) (var 1 ys).
Proof.
  intro H. unfold var. rewrite (Forall2_length H).
  destruct (length ys <=? 1)%nat eqn:E; simpl; [exact I|].
  apply Nat.leb_gt in E.
  assert (M : Qmean xs == k * Qmean ys).
  { rewrite (Qmean_affine k 0 xs ys).
    - ring.
    - apply (Forall2_impl (R1 := scaled k)); [|exact H].
      intros x y r. unfold affine, scaled in *. rewrite r. ring.
    - intro N. rewrite N in E. simpl in E. lia. }
  rewrite (Qsum_squares_scaled xs ys _ _ H M).
  field.
  assert (P : 0 < inject_Z (Z.of_nat (length ys - 1)))
    by (apply inject_nat_pos; lia).
  lra.
Qed.

Lemma Qabs_scaled (x y : Q) : scaled k x y -> Qabs x == k * Qabs y.
Proof.
  unfold scaled. intro r.
  rewrite r, Qabs_Qmult, (Qabs_pos k) by lra. reflexivity.
Qed.

Lemma gt_surd_scaled (x y : Q) (s s' : surd) :
  scaled k x y -> radicand s == k * k * radicand s' ->
  gt_surd (Qabs x) s = gt_surd (Qabs y) s'.
Proof.
  intros r v. unfold gt_surd.
  rewrite (Qabs_scaled x y r), v.
  pose proof (Qabs_nonneg y) as P.
  set (a := Qabs y) in *. set (c := radicand s').
  apply bool_eq_iff. rewrite !andb_true_iff, !Qltb_lt.
  assert (K : 0 < k * k) by nra.
  setoid_replace (k * a * (k * a)) with (k * k * (a * a)) by ring.
  rewrite (Qmult_lt_l _ _ _ K).
  split; intros [Z L]; (split; [nra|exact L]).
Qed.

Lemma exceeds_scaled (t t' : option surd) (d d' : option Q) :
  opt_rel (fun s s' => radicand s == k * k * radicand s') t t' ->
  opt_rel (scaled k) d d' ->
  exceeds t d = exceeds t' d'.
Proof.
  destruct t as [s|], t' as [s'|], d as [x|], d' as [y|]; simpl;
    try contradiction; try reflexivity.
  intros v r. now apply gt_surd_scaled.
Qed.

(** The mask does not depend on the scale of the monthly means. *)
Lemma anomaly_mask_affine (m m' : list MonthlyPoint) :
  Forall2 (affine k b) (map mean_temperature m) (map mean_temperature m') ->
  anomaly_mask m = anomaly_mask m'.
Proof.
  intro H.
  assert (D : Forall2 (opt_rel (scaled k)) (deviation m) (deviation m')).
  { unfold deviation, rolling. apply deviation_scaled; [exact H|].
    apply rolling_mean_affine; [lia|exact H]. }
  assert (T : opt_rel (fun s s' => radicand s == k * k * radicand s')
                      (threshold m) (threshold m')).
  { unfold threshold, std.
    pose proof (var_scaled _ _ (Forall2_dropna (scaled k) _ _ D)) as V.
    destruct (var 1 (dropna (deviation m))) as [v|],
             (var 1 (dropna (deviation m'))) as [v'|]; simpl in *;
      try contradiction; [|exact I].
    rewrite V. ring. }
  unfold anomaly_mask.
  induction D as [|d d' t t' r D IH]; simpl; [reflexivity|].
  f_equal; [now apply exceeds_scaled | exact IH].
Qed.

End Scale.

(** ** The frame in Fahrenheit against the frame in Celsius *)

Section Conversion.

#[local] Arguments convert : simpl never.

Lemma filter_map_comm {A B : Type} (p : B -> bool) (g : A -> B)
    (l : list A) :
  filter p (map g l) = map g (filter (fun a => p (g a)) l).
Proof.
  induction l as [|a t IH]; simpl; [reflexivity|].
  destruct (p (g a)); simpl; now rewrite IH.
Qed.

Lemma select_map {A B : Type} (g : A -> B) (l : list A) (mask : list bool) :
  map g (select l mask) = select (map g l) mask.
Proof.
  revert mask. induction l as [|a t IH]; intros [|c mask]; simpl;
    try reflexivity.
  destruct c; simpl; now rewrite IH.
Qed.

Lemma periods_to_f (rows : list Obs) :
  map (fun r => to_period (ds r)) (map to_fahrenheit rows)
  = map (fun r => to_period (ds r)) rows.
Proof. now rewrite map_map. Qed.

Lemma group_to_f (k : Period) (rows : list Obs) :
  group k (map to_fahrenheit rows) = map (convert Fahrenheit) (group k rows).
Proof.
  unfold group. rewrite filter_map_comm, !map_map. reflexivity.
Qed.

Lemma monthly_keys_to_f (rows : list Obs) :
  map year_month (monthly (map to_fahrenheit rows))
  = map year_month (monthly rows).
Proof. now rewrite !monthly_keys, periods_to_f. Qed.

Lemma map_affine (xs : list Q) :
  Forall2 (affine (9 # 5) 32) (map (convert Fahrenheit) xs) xs.
Proof.
  induction xs as [|x t IH]; simpl; constructor; [|exact IH].
  apply convert_fahrenheit.
Qed.

Lemma monthly_means_to_f (rows : list Obs) :
  Forall2 (affine (9 # 5) 32)
          (map mean_temperature (monthly (map to_fahrenheit rows)))
          (map mean_temperature (monthly rows)).
Proof.
  unfold monthly. rewrite periods_to_f, !map_map. simpl.
  apply Forall2_map_same. intros k Hk.
  apply (proj1 (group_keys_In _ _)) in Hk.
  apply (proj1 (in_map_iff _ _ _)) in Hk. destruct Hk as [r [E Hr]].
  rewrite group_to_f. apply Qmean_affine; [apply map_affine|].
  intro N.
  assert (I : In (temperature r) (group k rows))
    by (apply group_In; now exists r).
  rewrite N in I. destruct I.
Qed.

Lemma Qle_bool_convert (x y : Q) :
  Qle_bool (convert Fahrenheit x) (convert Fahrenheit y) = Qle_bool x y.
Proof.
  apply bool_eq_iff. rewrite !Qle_bool_iff. apply convert_le.
Qed.

Lemma Qltb_convert (x y : Q) :
  Qltb (convert Fahrenheit x) (convert Fahrenheit y) = Qltb x y.
Proof. unfold Qltb. now rewrite Qle_bool_convert. Qed.

Lemma insert_sorted_convert (x : Q) (l : list Q) :
  insert_sorted (convert Fahrenheit x) (map (convert Fahrenheit) l)
  = map (convert Fahrenheit) (insert_sorted x l).
Proof.
  induction l as [|y t IH]; simpl; [reflexivity|].
  rewrite Qle_bool_convert. destruct (Qle_bool x y); simpl; [reflexivity|].
  now rewrite IH.
Qed.

Lemma sort_convert (l : list Q) :
  sort (map (convert Fahrenheit) l) = map (convert Fahrenheit) (sort l).
Proof.
  induction l as [|x t IH]; simpl; [reflexivity|].
  now rewrite IH, insert_sorted_convert.
Qed.

Lemma lerp_convert (x y t : Q) :
  lerp (convert Fahrenheit x) (convert Fahrenheit y) t
  == convert Fahrenheit (lerp x y t).
Proof. unfold lerp, convert. field. Qed.

(** The percentile of the converted values is the converted percentile. *)
Lemma percentile_convert (a : list Q) (q : Q) :
  a <> [] -> 0 <= q -> q <= 100 ->
  exists v v',
    percentile a q = Ok v
    /\ percentile (map (convert Fahrenheit) a) q = Ok v'
    /\ v' == convert Fahrenheit v.
Proof.
  intros H L U.
  assert (H' : map (convert Fahrenheit) a <> [])
    by (intro E; apply map_eq_nil in E; contradiction).
  assert (N : (1 <= length a)%nat)
    by (destruct a; [congruence | simpl; lia]).
  destruct (percentile_positions _ q N L U) as [F [P1 [P2 P3]]].
  rewrite (percentile_value a q H).
  rewrite (percentile_value (map (convert Fahrenheit) a) q H').
  eexists. eexists. split; [reflexivity|]. split; [reflexivity|].
  cbv zeta. rewrite length_map, sort_convert.
  rewrite (nth_indep (map (convert Fahrenheit) (sort a)) 0
                     (convert Fahrenheit 0))
    by (rewrite length_map, sort_length; lia).
  rewrite (nth_indep (map (convert Fahrenheit) (sort a)) 0
                     (convert Fahrenheit 0))
    by (rewrite length_map, sort_length; lia).
  rewrite !map_nth. apply lerp_convert.
Qed.

Lemma is_heatwave_to_f (h h' : Q) (r : Obs) :
  h' == convert Fahrenheit h ->
  is_heatwave h' (to_fahrenheit r) = is_heatwave h r.
Proof.
  intro E. unfold is_heatwave, to_fahrenheit. simpl.
  rewrite E. apply Qltb_convert.
Qed.

Lemma is_coldwave_to_f (c c' : Q) (r : Obs) :
  c' == convert Fahrenheit c ->
  is_coldwave c' (to_fahrenheit r) = is_coldwave c r.
Proof.
  intro E. unfold is_coldwave, to_fahrenheit. simpl.
  rewrite E. apply Qltb_convert.
Qed.

Lemma heatwave_days_to_f (h h' : Q) (rows : list Obs) :
  h' == convert Fahrenheit h ->
  heatwave_days (map to_fahrenheit rows) h'
  = map to_fahrenheit (heatwave_days rows h).
Proof.
  intro E. unfold heatwave_days. rewrite filter_map_comm. f_equal.
  apply filter_ext. intro r. now apply is_heatwave_to_f.
Qed.

Lemma coldwave_days_to_f (c c' : Q) (rows : list Obs) :
  c' == convert Fahrenheit c ->
  coldwave_days (map to_fahrenheit rows) c'
  = map to_fahrenheit (coldwave_days rows c).
Proof.
  intro E. unfold coldwave_days. rewrite filter_map_comm. f_equal.
  apply filter_ext. intro r. now apply is_coldwave_to_f.
Qed.

End Conversion.

(** C10.  For every city, the months flagged as anomalies and the days
    classified as heatwave or coldwave days are the same whether Celsius or
    Fahrenheit is selected: the two frames hold the same days, the monthly
    periods and the anomaly mask over them coincide, the percentile
    thresholds in Fahrenheit are the converted Celsius thresholds, and the
    two classifications flag the same rows.
    (Over exact rational arithmetic.) *)
Theorem unit_invariance (weather : list WeatherRow) (city : string) :
  let rowsC := filtered weather city Celsius in
  let rowsF := filtered weather city Fahrenheit in
  map ds rowsF = map ds rowsC
  /\ map year_month (monthly rowsF) = map year_month (monthly rowsC)
  /\ anomaly_mask (monthly rowsF) = anomaly_mask (monthly rowsC)
  /\ map year_month (anomalies (monthly rowsF))
     = map year_month (anomalies (monthly rowsC))
  /\ (select_city weather city <> [] ->
      exists hC cC hF cF,
        heat_threshold rowsC = Ok hC /\ cold_threshold rowsC = Ok cC
        /\ heat_threshold rowsF = Ok hF /\ cold_threshold rowsF = Ok cF
        /\ hF == convert Fahrenheit hC /\ cF == convert Fahrenheit cC
        /\ map (is_heatwave hF) rowsF = map (is_heatwave hC) rowsC
        /\ map (is_coldwave cF) rowsF = map (is_coldwave cC) rowsC
        /\ map ds (heatwave_days rowsF hF) = map ds (heatwave_days rowsC hC)
        /\ map ds (coldwave_days rowsF cF) = map ds (coldwave_days rowsC cC)).
Proof.
  intros rowsC rowsF. unfold rowsF. rewrite filtered_fahrenheit. fold rowsC.
  assert (K : map year_month (monthly (map to_fahrenheit rowsC))
              = map year_month (monthly rowsC))
    by apply monthly_keys_to_f.
  assert (M : anomaly_mask (monthly (map to_fahrenheit rowsC))
              = anomaly_mask (monthly rowsC)).
  { apply (anomaly_mask_affine (9 # 5) 32); [reflexivity|].
    apply monthly_means_to_f. }
  split; [now rewrite map_map|].
  split; [exact K|]. split; [exact M|]. split.
  - unfold anomalies. now rewrite !select_map, K, M.
  - intro H.
    assert (N : map temperature rowsC <> []).
    { apply temperatures_not_nil. now apply filtered_not_nil. }
    destruct (percentile_convert _ 95 N) as [hC [hF [HC [HF EH]]]];
      [lra|lra|].
    destruct (percentile_convert _ 5 N) as [cC [cF [CC [CF EC]]]];
      [lra|lra|].
    exists hC, cC, hF, cF.
    rewrite map_map in HF, CF.
    split; [exact HC|]. split; [exact CC|].
    split; [unfold heat_threshold; rewrite map_map; exact HF|].
    split; [unfold cold_threshold; rewrite map_map; exact CF|].
    split; [exact EH|]. split; [exact EC|].
    split; [|split; [|split]].
    + rewrite map_map. apply map_ext. intro r.
      now apply (is_heatwave_to_f hC hF r).
    + rewrite map_map. apply map_ext. intro r.
      now apply (is_coldwave_to_f cC cF r).
    + rewrite (heatwave_days_to_f hC hF rowsC EH). now rewrite map_map.
    + rewrite (coldwave_days_to_f cC cF rowsC EC). now rewrite map_map.
Qed.

Lemma unit_invariance_witness :
  select_city sample_weather "Pune" <> []
  /\ exists hC cC hF cF,
       heat_threshold (filtered sample_weather "Pune" Celsius) = Ok hC
       /\ cold_threshold (filtered sample_weather "Pune" Celsius) = Ok cC
       /\ heat_threshold (filtered sample_weather "Pune" Fahrenheit) = Ok hF
       /\ cold_threshold (filtered sample_weather "Pune" Fahrenheit) = Ok cF
       /\ hF == convert Fahrenheit hC /\ cF == convert Fahrenheit cC
       /\ map (is_heatwave hF) (filtered sample_weather "Pune" Fahrenheit)
          = map (is_heatwave hC) (filtered sample_weather "Pune" Celsius)
       /\ map (is_coldwave cF) (filtered sample_weather "Pune" Fahrenheit)
          = map (is_coldwave cC) (filtered sample_weather "Pune" Celsius)
       /\ map ds (heatwave_days (filtered sample_weather "Pune" Fahrenheit) hF)
          = map ds (heatwave_days (filtered sample_weather "Pune" Celsius) hC)
       /\ map ds (coldwave_days (filtered sample_weather "Pune" Fahrenheit) cF)
          = map ds (coldwave_days (filtered sample_weather "Pune" Celsius) cC).
Proof.
  split; [discriminate|].
  pose proof (unit_invariance sample_weather "Pune") as U. cbv zeta in U.
  destruct U as [_ [_ [_ [_ E]]]]. apply E. discriminate.
Defined.

(** The detector does flag a month: after twenty-three months at 10 degrees
    a month at 100 degrees is the one anomaly. *)
Example spike_points_flagged :
  anomaly_mask spike_points = repeat false 23 ++ [true]
  /\ map year_month (anomalies spike_points) = [ (2021, 12)%Z ].
Proof. split; vm_compute; reflexivity. Qed.

(** * Further properties of the script *)

(** ** The selection in date order *)

Section DateOrder.

Lemma date_leb_spec (a b : Date) :
  date_leb a b = true
  <-> (year a < year b
       \/ (year a = year b
           /\ (month a < month b
               \/ (month a = month b /\ day a <= day b))))%Z.
Proof.
  unfold date_leb, date_compare, period_compare, to_period. simpl.
  destruct (Z.compare_spec (year a) (year b)),
           (Z.compare_spec (month a) (month b)),
           (Z.compare_spec (day a) (day b));
    split; intro; try lia; try reflexivity; try discriminate.
Qed.

Lemma date_leb_total (a b : Date) :
  date_leb a b = false -> date_leb b a = true.
Proof.
  intro H. apply date_leb_spec.
  assert (N : ~ date_leb a b = true) by congruence.
  rewrite date_leb_spec in N. lia.
Qed.

Lemma date_leb_trans (a b c : Date) :
  date_leb a b = true -> date_leb b c = true -> date_leb a c = true.
Proof. rewrite !date_leb_spec. lia. Qed.

Lemma insert_by_date_perm (r : WeatherRow) (l : list WeatherRow) :
  Permutation (insert_by_date r l) (r :: l).
Proof.
  induction l as [|x t IH]; simpl; [reflexivity|].
  destruct (date_leb (date r) (date x)); [reflexivity|].
  rewrite IH. apply perm_swap.
Qed.

Lemma sort_values_perm (l : list WeatherRow) : Permutation (sort_values l) l.
Proof.
  induction l as [|x t IH]; simpl; [reflexivity|].
  rewrite insert_by_date_perm. now constructor.
Qed.

Lemma insert_by_date_sorted (r : WeatherRow) (l : list WeatherRow) :
  StronglySorted (fun a b => date_leb (date a) (date b) = true) l ->
  StronglySorted (fun a b => date_leb (date a) (date b) = true)
                 (insert_by_date r l).
Proof.
  induction 1 as [|x t S IH F]; simpl.
  - constructor; constructor.
  - destruct (date_leb (date r) (date x)) eqn:E.
    + constructor; [now constructor|].
      constructor; [exact E|].
      apply Forall_forall. intros y Hy. rewrite Forall_forall in F.
      apply date_leb_trans with (date x); [exact E | now apply F].
    + constructor; [exact IH|].
      apply (Permutation_Forall
               (Permutation_sym (insert_by_date_perm r t))).
      constructor; [now apply date_leb_total | exact F].
Qed.

Lemma StronglySorted_map {A B : Type} (R : B -> B -> Prop) (g : A -> B)
    (l : list A) :
  StronglySorted (fun a b => R (g a) (g b)) l -> StronglySorted R (map g l).
Proof.
  induction 1 as [|x t S IH F]; simpl; constructor; [exact IH|].
  apply Forall_forall. intros y Hy.
  apply (proj1 (in_map_iff _ _ _)) in Hy. destruct Hy as [a [<- Ha]].
  rewrite Forall_forall in F. now apply F.
Qed.

Lemma sort_values_ordered (l : list WeatherRow) :
  StronglySorted (fun a b => date_leb (date a) (date b) = true)
                 (sort_values l).
Proof.
  induction l as [|x t IH]; simpl; [constructor|].
  now apply insert_by_date_sorted.
Qed.

End DateOrder.

(** [sort_values("date")] keeps every row, as often as it occurs, and
    returns the rows in non-decreasing date order. *)
Lemma sort_values_sorted (l : list WeatherRow) :
  Permutation (sort_values l) l
  /\ StronglySorted (fun a b => date_leb (date a) (date b) = true)
                    (sort_values l).
Proof.
  split; [apply sort_values_perm | apply sort_values_ordered].
Qed.

(** X1.  The filtered frame holds exactly the rows of the selected city,
    each with its temperature converted to the selected unit, one row for
    each matching weather row, in non-decreasing date order. *)
Theorem filtered_rows_of_city (weather : list WeatherRow) (city : string)
    (unit : Unit) :
  Permutation
    (filtered weather city unit)
    (map (fun r => mkObs (date r) (convert unit (avg_temp_c r)))
         (filter (fun r => String.eqb (city_name r) city) weather))
  /\ (forall o, In o (filtered weather city unit)
                <-> exists r, In r weather /\ city_name r = city
                              /\ o = mkObs (date r)
                                           (convert unit (avg_temp_c r)))
  /\ StronglySorted (fun a b => date_leb a b = true)
                    (map ds (filtered weather city unit)).
Proof.
  unfold filtered, select_city.
  set (sel := filter (fun r => String.eqb (city_name r) city) weather).
  split; [|split].
  - apply Permutation_map, sort_values_perm.
  - intro o. rewrite in_map_iff. split.
    + intros [r [E H]].
      apply (Permutation_in _ (sort_values_perm sel)) in H.
      unfold sel in H. apply filter_In in H. destruct H as [H C].
      apply String.eqb_eq in C. now exists r.
    + intros [r [H [C E]]]. exists r. split; [now symmetry|].
      apply (Permutation_in _ (Permutation_sym (sort_values_perm sel))).
      unfold sel. apply filter_In. split; [exact H|].
      now apply String.eqb_eq.
  - rewrite map_map. simpl. apply StronglySorted_map.
    apply (sort_values_ordered sel).
Qed.

(** ** KPI SECTION *)

Section Kpi.

Lemma Qmax2_cases (x y : Q) :
  (Qmax2 x y = x /\ y <= x) \/ (Qmax2 x y = y /\ x <= y).
Proof.
  unfold Qmax2. destruct (Qle_bool x y) eqn:E.
  - right. split; [reflexivity|]. now apply Qle_bool_iff.
  - left. split; [reflexivity|].
    apply Qlt_le_weak, Qnot_le_lt. intro L.
    apply Qle_bool_iff in L. congruence.
Qed.

Lemma Qmin2_cases (x y : Q) :
  (Qmin2 x y = x /\ x <= y) \/ (Qmin2 x y = y /\ y <= x).
Proof.
  unfold Qmin2. destruct (Qle_bool x y) eqn:E.
  - left. split; [reflexivity|]. now apply Qle_bool_iff.
  - right. split; [reflexivity|].
    apply Qlt_le_weak, Qnot_le_lt. intro L.
    apply Qle_bool_iff in L. congruence.
Qed.

Lemma fold_max_spec (t : list Q) (x : Q) :
  In (fold_left Qmax2 t x) (x :: t)
  /\ forall y, In y (x :: t) -> y <= fold_left Qmax2 t x.
Proof.
  revert x. induction t as [|z t IH]; intro x; simpl.
  - split; [now left|]. intros y [<-|[]]. apply Qle_refl.
  - destruct (IH (Qmax2 x z)) as [I B]. split.
    + destruct I as [E|I]; [|right; right; exact I].
      destruct (Qmax2_cases x z) as [[M _]|[M _]]; rewrite M in E |- *;
        [left | right; left]; exact E.
    + intros y Hy.
      assert (X : x <= fold_left Qmax2 t (Qmax2 x z)).
      { apply Qle_trans with (Qmax2 x z); [|apply B; now left].
        destruct (Qmax2_cases x z) as [[M L]|[M L]]; rewrite M;
          [apply Qle_refl | exact L]. }
      assert (Z : z <= fold_left Qmax2 t (Qmax2 x z)).
      { apply Qle_trans with (Qmax2 x z); [|apply B; now left].
        destruct (Qmax2_cases x z) as [[M L]|[M L]]; rewrite M;
          [exact L | apply Qle_refl]. }
      destruct Hy as [<-|[<-|Hy]]; [exact X | exact Z |].
      apply B. now right.
Qed.

Lemma fold_min_spec (t : list Q) (x : Q) :
  In (fold_left Qmin2 t x) (x :: t)
  /\ forall y, In y (x :: t) -> fold_left Qmin2 t x <= y.
Proof.
  revert x. induction t as [|z t IH]; intro x; simpl.
  - split; [now left|]. intros y [<-|[]]. apply Qle_refl.
  - destruct (IH (Qmin2 x z)) as [I B]. split.
    + destruct I as [E|I]; [|right; right; exact I].
      destruct (Qmin2_cases x z) as [[M _]|[M _]]; rewrite M in E |- *;
        [left | right; left]; exact E.
    + intros y Hy.
      assert (X : fold_left Qmin2 t (Qmin2 x z) <= x).
      { apply Qle_trans with (Qmin2 x z); [apply B; now left|].
        destruct (Qmin2_cases x z) as [[M L]|[M L]]; rewrite M;
          [apply Qle_refl | exact L]. }
      assert (Z : fold_left Qmin2 t (Qmin2 x z) <= z).
      { apply Qle_trans with (Qmin2 x z); [apply B; now left|].
        destruct (Qmin2_cases x z) as [[M L]|[M L]]; rewrite M;
          [exact L | apply Qle_refl]. }
      destruct Hy as [<-|[<-|Hy]]; [exact X | exact Z |].
      apply B. now right.
Qed.

(** A sum lies between the count times a lower and an upper bound. *)
Lemma Qsum_bounds (xs : list Q) (lo hi : Q) :
  (forall x, In x xs -> lo <= x /\ x <= hi) ->
  lo * Qlen xs <= Qsum xs /\ Qsum xs <= hi * Qlen xs.
Proof.
  induction xs as [|x t IH]; intro H.
  - unfold Qlen, Qsum. cbn [length fold_right Z.of_nat].
    change (inject_Z 0) with 0. lra.
  - rewrite Qlen_cons. cbn [Qsum fold_right]. fold (Qsum t).
    destruct (H x) as [A B]; [now left|].
    destruct IH as [C D]; [intros y Hy; apply H; now right|].
    lra.
Qed.

Lemma Qmean_bounds (xs : list Q) (lo hi : Q) :
  xs <> [] ->
  (forall x, In x xs -> lo <= x /\ x <= hi) ->
  lo <= Qmean xs /\ Qmean xs <= hi.
Proof.
  intros N H. destruct (Qsum_bounds xs lo hi H) as [A B].
  assert (P : 0 < Qlen xs).
  { apply inject_nat_pos. destruct xs; [congruence | simpl; lia]. }
  unfold Qmean. split.
  - apply Qle_shift_div_l; assumption.
  - apply Qle_shift_div_r; assumption.
Qed.

End Kpi.

(** X2.  On a non-empty column the three KPIs are defined; the maximum and
    the minimum are values of the column that bound every value, and the
    average lies between them. *)
Theorem kpi_bounds (temps : list Q) :
  temps <> [] ->
  exists av mx mn,
    mean temps = Some av /\ maximum temps = Some mx /\ minimum temps = Some mn
    /\ In mx temps /\ In mn temps
    /\ (forall x, In x temps -> mn <= x /\ x <= mx)
    /\ mn <= av /\ av <= mx.
Proof.
  intro N. destruct temps as [|x t]; [congruence|].
  destruct (fold_max_spec t x) as [IM BM].
  destruct (fold_min_spec t x) as [Im Bm].
  exists (Qmean (x :: t)), (fold_left Qmax2 t x), (fold_left Qmin2 t x).
  repeat (split; [reflexivity|]).
  split; [exact IM|]. split; [exact Im|].
  assert (B : forall y, In y (x :: t) ->
                        fold_left Qmin2 t x <= y /\ y <= fold_left Qmax2 t x)
    by (intros y Hy; split; [now apply Bm | now apply BM]).
  split; [exact B|].
  apply Qmean_bounds; [exact N | exact B].
Qed.

Lemma kpi_bounds_witness :
  exists av mx mn,
    mean [5; 7; 3] = Some av /\ maximum [5; 7; 3] = Some mx
    /\ minimum [5; 7; 3] = Some mn
    /\ In mx [5; 7; 3] /\ In mn [5; 7; 3]
    /\ (forall x, In x [5; 7; 3] -> mn <= x /\ x <= mx)
    /\ mn <= av /\ av <= mx.
Proof. apply (kpi_bounds [5; 7; 3]). discriminate. Defined.

(** ** Rounding of the KPIs *)

Section Rounding.

Lemma round_half_even_cases (y : Q) :
  let f := Qfloor y in
  let r := y - inject_Z f in
  (r < 1 # 2 /\ round_half_even y = f)
  \/ (1 # 2 < r /\ round_half_even y = (f + 1)%Z)
  \/ (r == 1 # 2 /\ Z.even (round_half_even y) = true
      /\ (round_half_even y = f \/ round_half_even y = (f + 1)%Z)).
Proof.
  intros f r. unfold round_half_even. fold f. fold r.
  destruct (Qltb r (1 # 2)) eqn:A.
  - left. apply Qltb_lt in A. now split.
  - apply Qltb_nlt in A. destruct (Qltb (1 # 2) r) eqn:B.
    + right. left. apply Qltb_lt in B. now split.
    + apply Qltb_nlt in B. right. right.
      split; [apply Qle_antisym; assumption|].
      destruct (Z.even f) eqn:E.
      * split; [exact E | now left].
      * split; [|now right]. rewrite Z.even_add, E. reflexivity.
Qed.

Lemma hundredth_distance (a x : Q) :
  a / 100 - x == (a - x * 100) * (1 # 100).
Proof. field. Qed.

End Rounding.

(** X3.  [round(x, 2)] of a KPI: a NaN stays a NaN; a value is replaced by
    a whole number of hundredths at distance at most 0.005 from it, and when
    the value lies exactly halfway between two hundredths the even one is
    taken. *)
Theorem round2_nearest (x : Q) :
  round2 None = None
  /\ exists z : Z,
       round2 (Some x) = Some (inject_Z z / 100)
       /\ Qabs (inject_Z z / 100 - x) <= 1 # 200
       /\ (Qabs (inject_Z z / 100 - x) == 1 # 200 -> Z.even z = true).
Proof.
  split; [reflexivity|].
  exists (round_half_even (x * 100)). split; [reflexivity|].
  rewrite hundredth_distance.
  destruct (fraction_bounds (x * 100)) as [G0 G1].
  pose proof (round_half_even_cases (x * 100)) as C. cbv zeta in C.
  pose proof (inject_Z_succ (Qfloor (x * 100))) as S.
  destruct C as [[R E]|[[R E]|[R [Ev D]]]].
  - rewrite E. split.
    + apply Qabs_Qle_condition. split; lra.
    + intro T. exfalso. revert T. apply Qabs_case; intros _ T; lra.
  - rewrite E, S. split.
    + apply Qabs_Qle_condition. split; lra.
    + intro T. exfalso. revert T. apply Qabs_case; intros _ T; lra.
  - split; [|intros _; exact Ev].
    destruct D as [E|E]; rewrite E, ?S;
      apply Qabs_Qle_condition; split; lra.
Qed.

Lemma round2_nearest_witness :
  exists z : Z,
    round2 (Some (12345 # 1000)) = Some (inject_Z z / 100)
    /\ z = 1234%Z /\ Z.even z = true.
Proof.
  destruct (round2_nearest (12345 # 1000)) as [_ [z [E [_ T]]]].
  assert (Z : z = 1234%Z).
  { assert (L : round2 (Some (12345 # 1000)) = Some (inject_Z 1234 / 100))
      by reflexivity.
    rewrite L in E.
    assert (N := f_equal (fun o => match o with
                                   | Some q => Qnum q
                                   | None => 0%Z
                                   end) E).
    cbn in N. lia. }
  exists z. split; [exact E|]. split; [exact Z|].
  apply T. rewrite Z. reflexivity.
Defined.

(** ** KPIs and trend in the two units *)

Section KpiUnits.

#[local] Arguments convert : simpl never.

Lemma Qmax2_convert (x y : Q) :
  Qmax2 (convert Fahrenheit x) (convert Fahrenheit y)
  = convert Fahrenheit (Qmax2 x y).
Proof.
  unfold Qmax2. rewrite Qle_bool_convert. now destruct (Qle_bool x y).
Qed.

Lemma Qmin2_convert (x y : Q) :
  Qmin2 (convert Fahrenheit x) (convert Fahrenheit y)
  = convert Fahrenheit (Qmin2 x y).
Proof.
  unfold Qmin2. rewrite Qle_bool_convert. now destruct (Qle_bool x y).
Qed.

Lemma fold_max_convert (t : list Q) (x : Q) :
  fold_left Qmax2 (map (convert Fahrenheit) t) (convert Fahrenheit x)
  = convert Fahrenheit (fold_left Qmax2 t x).
Proof.
  revert x. induction t as [|z t IH]; intro x; simpl; [reflexivity|].
  now rewrite Qmax2_convert, IH.
Qed.

Lemma fold_min_convert (t : list Q) (x : Q) :
  fold_left Qmin2 (map (convert Fahrenheit) t) (convert Fahrenheit x)
  = convert Fahrenheit (fold_left Qmin2 t x).
Proof.
  revert x. induction t as [|z t IH]; intro x; simpl; [reflexivity|].
  now rewrite Qmin2_convert, IH.
Qed.

Lemma temperatures_fahrenheit (weather : list WeatherRow) (city : string) :
  map temperature (filtered weather city Fahrenheit)
  = map (convert Fahrenheit)
        (map temperature (filtered weather city Celsius)).
Proof. rewrite filtered_fahrenheit, !map_map. reflexivity. Qed.

Lemma last_map_convert (l : list Q) :
  l <> [] ->
  last (map (convert Fahrenheit) l) 0 = convert Fahrenheit (last l 0).
Proof.
  induction l as [|x t IH]; [congruence|]. intros _.
  destruct t as [|y t']; [reflexivity|].
  change (last (map (convert Fahrenheit) (y :: t')) 0
          = convert Fahrenheit (last (y :: t') 0)).
  apply IH. discriminate.
Qed.

Lemma trend_direction_convert (l : list Q) :
  trend_direction (map (convert Fahrenheit) l) = trend_direction l.
Proof.
  destruct l as [|x t]; [reflexivity|].
  rewrite !trend_direction_cons by discriminate.
  rewrite last_map_convert by discriminate.
  cbn [map hd]. now rewrite Qltb_convert.
Qed.

End KpiUnits.

(** X4.  The unit conversion commutes with the KPIs before rounding: for
    every selection the Fahrenheit average, maximum and minimum are the
    converted Celsius ones (all three are NaN together on an empty
    selection). *)
Theorem kpi_unit_conversion (weather : list WeatherRow) (city : string) :
  let tC := map temperature (filtered weather city Celsius) in
  let tF := map temperature (filtered weather city Fahrenheit) in
  opt_rel (fun f c => f == convert Fahrenheit c) (mean tF) (mean tC)
  /\ maximum tF = option_map (convert Fahrenheit) (maximum tC)
  /\ minimum tF = option_map (convert Fahrenheit) (minimum tC).
Proof.
  intros tC tF. unfold tF. rewrite temperatures_fahrenheit. fold tC.
  destruct tC as [|x t]; [repeat split|].
  split; [|split].
  - cbn [map mean opt_rel].
    change (convert Fahrenheit x :: map (convert Fahrenheit) t)
      with (map (convert Fahrenheit) (x :: t)).
    rewrite (Qmean_affine (9 # 5) 32 _ (x :: t)
               (map_affine (x :: t))) by discriminate.
    now rewrite convert_fahrenheit.
  - cbn [map maximum option_map]. now rewrite fold_max_convert.
  - cbn [map minimum option_map]. now rewrite fold_min_convert.
Qed.

(** X5.  The trend direction does not depend on the selected unit; on an
    empty selection the trend step raises in both units. *)
Theorem trend_unit_invariant (weather : list WeatherRow) (city : string) :
  trend_direction (map temperature (filtered weather city Fahrenheit))
  = trend_direction (map temperature (filtered weather city Celsius)).
Proof.
  rewrite temperatures_fahrenheit. apply trend_direction_convert.
Qed.

(** ** Which months can be flagged *)

Section Flagging.

Lemma count_true_le (mask : list bool) :
  (count_true mask <= length mask)%nat.
Proof.
  unfold count_true. induction mask as [|[|] t IH]; simpl; lia.
Qed.

Lemma count_true_skip (k : nat) (mask : list bool) :
  (forall i, (i < k)%nat -> nth i mask false = false) ->
  (count_true mask <= length mask - k)%nat.
Proof.
  revert k. induction mask as [|b t IH]; intros k H;
    [unfold count_true; simpl; lia|].
  destruct k as [|k].
  - pose proof (count_true_le (b :: t)). lia.
  - assert (B : b = false) by (apply (H 0%nat); lia). subst b.
    assert (K : (count_true t <= length t - k)%nat).
    { apply IH. intros i Hi. apply (H (S i)). lia. }
    unfold count_true in *. simpl. exact K.
Qed.

Lemma select_length {A : Type} (l : list A) (mask : list bool) :
  length l = length mask -> length (select l mask) = count_true mask.
Proof.
  revert mask. induction l as [|a t IH]; intros [|b mask] H;
    simpl in H; try discriminate; [reflexivity|].
  unfold count_true in *. simpl. destruct b; simpl; rewrite IH; lia.
Qed.

(** A mask that is false on the first [k] positions and true afterwards
    selects the rows after the first [k]. *)
Lemma select_skipn {A : Type} (l : list A) (mask : list bool) (k : nat) :
  length mask = length l ->
  (forall i, (i < k)%nat -> nth i mask false = false) ->
  (forall i, (k <= i < length l)%nat -> nth i mask false = true) ->
  select l mask = skipn k l.
Proof.
  revert mask k. induction l as [|a t IH]; intros [|b mask] k L F T;
    simpl in L; try discriminate.
  - now destruct k.
  - destruct k as [|k].
    + assert (B : b = true) by (apply (T 0%nat); simpl; lia). subst b.
      simpl. f_equal. apply (IH mask 0%nat); [lia| intros i Hi; lia |].
      intros i Hi. apply (T (S i)). simpl. lia.
    + assert (B : b = false) by (apply (F 0%nat); lia). subst b.
      simpl. apply IH; [lia| |].
      * intros i Hi. apply (F (S i)). lia.
      * intros i Hi. apply (T (S i)). simpl. lia.
Qed.

Lemma anomaly_mask_early (m : list MonthlyPoint) (i : nat) :
  (i < 11)%nat -> nth i (anomaly_mask m) false = false.
Proof.
  intro H. rewrite anomaly_mask_nth.
  destruct (Nat.lt_ge_cases i (length m)) as [L|G].
  - rewrite (deviation_nth m i L). unfold spec_deviation, spec_rolling_mean.
    now replace (11 <=? i)%nat with false
      by (symmetry; apply Nat.leb_gt; lia).
  - rewrite nth_overflow by (rewrite deviation_length; lia). reflexivity.
Qed.

(** The deviation of a month from the twelfth on. *)
Lemma deviation_late (m : list MonthlyPoint) (i : nat) :
  (11 <= i < length m)%nat ->
  nth i (deviation m) None
  = Some (nth i (map mean_temperature m) 0
          - Qsum (map (fun j => nth j (map mean_temperature m) 0)
                      (seq (i - 11) 12)) / 12).
Proof.
  intros [A B]. rewrite (deviation_nth m i B).
  unfold spec_deviation, spec_rolling_mean.
  now replace (11 <=? i)%nat with true by (symmetry; apply Nat.leb_le; lia).
Qed.

Lemma Qsum_map_eq {I : Type} (f g : I -> Q) (l : list I) :
  (forall j, In j l -> f j == g j) -> Qsum (map f l) == Qsum (map g l).
Proof.
  induction l as [|j t IH]; intro H; simpl; [reflexivity|].
  rewrite (H j) by now left. rewrite IH; [reflexivity|].
  intros i Hi. apply H. now right.
Qed.

Lemma Qsum_map_const {I : Type} (v : Q) (l : list I) :
  Qsum (map (fun _ => v) l) == v * inject_Z (Z.of_nat (length l)).
Proof.
  induction l as [|j t IH].
  - simpl. ring.
  - cbn [map Qsum fold_right length]. fold (Qsum (map (fun _ => v) t)).
    rewrite IH, Nat2Z.inj_succ. unfold Z.succ. rewrite inject_Z_plus. ring.
Qed.

(** A month equal to its twelve-month mean is never flagged. *)
Lemma exceeds_zero (thr : option surd) (d : Q) :
  d == 0 -> exceeds thr (Some d) = false.
Proof.
  intro E. destruct thr as [t|]; [|reflexivity].
  unfold exceeds, gt_surd. now rewrite E.
Qed.

End Flagging.

(** X6.  The first eleven months of a series are never flagged, so the
    number of anomalies shown is at most the number of months minus 11 (and
    it is the number of true entries of the mask). *)
Theorem early_months_never_flagged (m : list MonthlyPoint) :
  (forall i, (i < 11)%nat -> nth i (anomaly_mask m) false = false)
  /\ length (anomalies m) = count_true (anomaly_mask m)
  /\ (length (anomalies m) <= length m - 11)%nat.
Proof.
  assert (E : forall i, (i < 11)%nat -> nth i (anomaly_mask m) false = false)
    by (intros i H; now apply anomaly_mask_early).
  assert (L : length (anomalies m) = count_true (anomaly_mask m)).
  { unfold anomalies. apply select_length.
    now rewrite anomaly_mask_length. }
  split; [exact E|]. split; [exact L|].
  rewrite L, <- (anomaly_mask_length m). now apply count_true_skip.
Qed.

Lemma early_months_never_flagged_witness :
  nth 10 (anomaly_mask spike_points) false = false
  /\ (length (anomalies spike_points) <= length spike_points - 11)%nat.
Proof.
  destruct (early_months_never_flagged spike_points) as [E [_ L]].
  split; [apply E; lia | exact L].
Defined.

(** X7.  A series whose monthly means are all equal has no anomaly, however
    long it is: every defined deviation is zero and the comparison with the
    threshold is strict. *)
Theorem constant_series_no_anomaly (m : list MonthlyPoint) (v : Q) :
  (forall p, In p m -> mean_temperature p == v) ->
  anomalies m = [].
Proof.
  intro H. unfold anomalies. apply select_none. intros b Hb.
  destruct (In_nth _ _ false Hb) as [i [Li E]]. subst b.
  rewrite anomaly_mask_length in Li.
  destruct (Nat.lt_ge_cases i 11) as [Early|Late];
    [now apply anomaly_mask_early|].
  rewrite anomaly_mask_nth, deviation_late by lia.
  apply exceeds_zero.
  assert (V : forall j, (j < length m)%nat ->
                        nth j (map mean_temperature m) 0 == v).
  { intros j Hj.
    rewrite (nth_indep _ 0 (mean_temperature (mkMonthly (0, 0)%Z 0)))
      by now rewrite length_map.
    rewrite map_nth. apply H. now apply nth_In. }
  rewrite (V i Li).
  rewrite (Qsum_map_eq _ (fun _ => v)).
  - rewrite Qsum_map_const, length_seq. field.
  - intros j Hj. apply in_seq in Hj. apply V. lia.
Qed.

Lemma constant_series_no_anomaly_witness :
  anomalies (map (fun i => mkMonthly (2000, Z.of_nat i)%Z 7) (seq 1 12)) = [].
Proof.
  apply (constant_series_no_anomaly _ 7).
  intros p Hp. apply (proj1 (in_map_iff _ _ _)) in Hp.
  destruct Hp as [i [<- _]]. reflexivity.
Defined.

(** ** A steady trend *)

Section SteadyTrend.

(** Sum of an arithmetic progression over consecutive indices. *)
Lemma arithmetic_sum (a c : Q) (s len : nat) :
  Qsum (map (fun j => a + c * inject_Z (Z.of_nat j)) (seq s len))
  == inject_Z (Z.of_nat len) * a
     + c * (inject_Z (Z.of_nat len) * inject_Z (Z.of_nat s)
            + inject_Z (Z.of_nat len) * (inject_Z (Z.of_nat len) - 1) / 2).
Proof.
  revert s. induction len as [|len IH]; intro s.
  - cbn [seq map Qsum fold_right Z.of_nat]. change (inject_Z 0) with 0.
    field.
  - cbn [seq map Qsum fold_right].
    fold (Qsum (map (fun j => a + c * inject_Z (Z.of_nat j))
                    (seq (S s) len))).
    rewrite IH, !Nat2Z.inj_succ. unfold Z.succ. rewrite !inject_Z_plus.
    change (inject_Z 1) with 1. field.
Qed.

Lemma Qmean_constant (xs : list Q) (d : Q) :
  xs <> [] -> (forall x, In x xs -> x == d) -> Qmean xs == d.
Proof.
  intros N H.
  destruct (Qmean_bounds xs d d N) as [A B].
  - intros x Hx. rewrite (H x Hx). split; apply Qle_refl.
  - now apply Qle_antisym.
Qed.

(** Equal values have sample variance zero. *)
Lemma var_constant (xs : list Q) (d : Q) :
  (1 < length xs)%nat -> (forall x, In x xs -> x == d) ->
  exists v, var 1 xs = Some v /\ v == 0.
Proof.
  intros L H. unfold var.
  replace (length xs <=? 1)%nat with false
    by (symmetry; apply Nat.leb_gt; lia).
  eexists. split; [reflexivity|].
  assert (M : Qmean xs == d).
  { apply Qmean_constant; [|exact H]. intro E. rewrite E in L.
    simpl in L. lia. }
  rewrite (Qsum_map_eq _ (fun _ => 0)).
  - rewrite Qsum_map_const. unfold Qdiv. ring.
  - intros x Hx. rewrite (H x Hx), M. ring.
Qed.

Variable m : list MonthlyPoint.
Variables a c : Q.
Hypothesis steady :
  forall i, (i < length m)%nat ->
            nth i (map mean_temperature m) 0
            == a + c * inject_Z (Z.of_nat i).

(** Every defined deviation of a steady trend is five and a half monthly
    steps. *)
Lemma steady_deviation (i : nat) :
  (11 <= i < length m)%nat ->
  nth i (map mean_temperature m) 0
  - Qsum (map (fun j => nth j (map mean_temperature m) 0) (seq (i - 11) 12))
    / 12
  == (11 # 2) * c.
Proof.
  intros [A B].
  rewrite (Qsum_map_eq _ (fun j => a + c * inject_Z (Z.of_nat j)))
    by (intros j Hj; apply in_seq in Hj; apply steady; lia).
  rewrite arithmetic_sum, (steady i B).
  change (inject_Z (Z.of_nat 12)) with 12.
  replace i with ((i - 11) + 11)%nat at 1 by lia.
  rewrite Nat2Z.inj_add, inject_Z_plus.
  change (inject_Z (Z.of_nat 11)) with 11. field.
Qed.

Lemma steady_mask (i : nat) :
  (13 <= length m)%nat -> ~ c == 0 -> (11 <= i < length m)%nat ->
  nth i (anomaly_mask m) false = true.
Proof.
  intros L C R. rewrite anomaly_mask_nth, (deviation_late m i R).
  assert (D : forall x, In x (dropna (deviation m)) -> x == (11 # 2) * c).
  { intros x Hx. rewrite defined_deviations in Hx.
    apply (proj1 (in_map_iff _ _ _)) in Hx. destruct Hx as [j [<- Hj]].
    apply in_seq in Hj. apply steady_deviation. lia. }
  destruct (var_constant (dropna (deviation m)) ((11 # 2) * c))
    as [v [V Z]]; [rewrite defined_deviations_length; lia | exact D |].
  unfold threshold, std. rewrite V. cbn [option_map exceeds].
  unfold gt_surd, surd_scale. cbn [radicand].
  rewrite (steady_deviation i R), Z.
  assert (P : 0 < Qabs ((11 # 2) * c)).
  { apply Qabs_case; intro H; [|lra].
    destruct (Qeq_dec ((11 # 2) * c) 0) as [E|N]; [|lra].
    exfalso. apply C. lra. }
  apply andb_true_iff. rewrite !Qltb_lt. split; [exact P|].
  set (q := Qabs ((11 # 2) * c)) in *. nra.
Qed.

End SteadyTrend.

(** X8.  A series of at least 13 months whose monthly mean changes by the
    same non-zero amount every month has every month from the twelfth on
    flagged: all defined deviations are equal, their standard deviation is
    zero, the threshold is zero and each deviation exceeds it. *)
Theorem steady_trend_all_flagged (m : list MonthlyPoint) (a c : Q) :
  (13 <= length m)%nat ->
  ~ c == 0 ->
  (forall i, (i < length m)%nat ->
             nth i (map mean_temperature m) 0
             == a + c * inject_Z (Z.of_nat i)) ->
  anomalies m = skipn 11 m.
Proof.
  intros L C H. unfold anomalies. apply select_skipn.
  - apply anomaly_mask_length.
  - intros i Hi. now apply anomaly_mask_early.
  - intros i Hi. now apply (steady_mask m a c H).
Qed.

Lemma steady_trend_all_flagged_witness :
  anomalies rising_points = skipn 11 rising_points.
Proof.
  apply (steady_trend_all_flagged rising_points 0 1).
  - simpl. lia.
  - discriminate.
  - intros i Hi.
    do 13 (destruct i as [|i]; [reflexivity|]).
    simpl in Hi. lia.
Defined.

(** ** The months partition the days *)

Section Partition.

Lemma list_sum_cons (x : nat) (l : list nat) :
  list_sum (x :: l) = (x + list_sum l)%nat.
Proof. reflexivity. Qed.

Lemma one_hot_count (p : Period) (ks : list Period) :
  NoDup ks -> In p ks ->
  list_sum (map (fun k => if period_eqb p k then 1 else 0)%nat ks) = 1%nat.
Proof.
  induction 1 as [|k t N D IH]; intro H; [destruct H|].
  cbn [map]. rewrite list_sum_cons. destruct H as [->|H].
  - rewrite period_eqb_refl.
    assert (Z : list_sum (map (fun k => if period_eqb p k then 1 else 0)%nat
                              t) = 0%nat).
    { clear IH D. induction t as [|k t IH]; [reflexivity|].
      cbn [map]. rewrite list_sum_cons.
      destruct (period_eqb p k) eqn:E.
      - apply period_eqb_eq in E. subst k. exfalso. apply N. now left.
      - rewrite IH; [reflexivity|]. intro I. apply N. now right. }
    now rewrite Z.
  - destruct (period_eqb p k) eqn:E.
    + apply period_eqb_eq in E. subst k. contradiction.
    + now rewrite IH.
Qed.

Lemma one_hot_sum (p : Period) (x : Q) (ks : list Period) :
  NoDup ks -> In p ks ->
  Qsum (map (fun k => if period_eqb p k then x else 0) ks) == x.
Proof.
  induction 1 as [|k t N D IH]; intro H; [destruct H|].
  cbn [map Qsum fold_right].
  fold (Qsum (map (fun k => if period_eqb p k then x else 0) t)).
  destruct H as [->|H].
  - rewrite period_eqb_refl.
    assert (Z : Qsum (map (fun k => if period_eqb p k then x else 0) t) == 0).
    { clear IH D. induction t as [|k t IH]; [reflexivity|].
      cbn [map Qsum fold_right].
      fold (Qsum (map (fun k => if period_eqb p k then x else 0) t)).
      destruct (period_eqb p k) eqn:E.
      - apply period_eqb_eq in E. subst k. exfalso. apply N. now left.
      - rewrite IH; [ring|]. intro I. apply N. now right. }
    rewrite Z. ring.
  - destruct (period_eqb p k) eqn:E.
    + apply period_eqb_eq in E. subst k. contradiction.
    + rewrite IH by exact H. ring.
Qed.

Lemma list_sum_map_add {I : Type} (f g : I -> nat) (l : list I) :
  list_sum (map (fun i => f i + g i)%nat l)
  = (list_sum (map f l) + list_sum (map g l))%nat.
Proof.
  induction l as [|i t IH]; [reflexivity|].
  cbn [map]. rewrite !list_sum_cons, IH. lia.
Qed.

Lemma Qsum_map_add {I : Type} (f g : I -> Q) (l : list I) :
  Qsum (map (fun i => f i + g i) l) == Qsum (map f l) + Qsum (map g l).
Proof.
  induction l as [|i t IH]; simpl; [ring|]. rewrite IH. ring.
Qed.

Lemma list_sum_map_ext {I : Type} (f g : I -> nat) (l : list I) :
  (forall i, f i = g i) -> list_sum (map f l) = list_sum (map g l).
Proof.
  intro H. induction l as [|i t IH]; [reflexivity|].
  cbn [map]. now rewrite !list_sum_cons, H, IH.
Qed.

Lemma group_cons (k : Period) (r : Obs) (t : list Obs) :
  group k (r :: t)
  = if period_eqb (to_period (ds r)) k then temperature r :: group k t
    else group k t.
Proof.
  unfold group. cbn [filter].
  now destruct (period_eqb (to_period (ds r)) k).
Qed.

Lemma groups_count (rows : list Obs) (ks : list Period) :
  NoDup ks ->
  (forall r, In r rows -> In (to_period (ds r)) ks) ->
  list_sum (map (fun k => length (group k rows)) ks) = length rows.
Proof.
  intros N. induction rows as [|r t IH]; intro H.
  - clear N H. induction ks as [|k ks IHk]; [reflexivity|].
    cbn [map]. rewrite list_sum_cons. now rewrite IHk.
  - rewrite (list_sum_map_ext _
               (fun k => (if period_eqb (to_period (ds r)) k then 1 else 0)
                         + length (group k t))%nat).
    + rewrite list_sum_map_add, one_hot_count, IH; trivial.
      * intros x Hx. apply H. now right.
      * apply H. now left.
    + intro k. rewrite group_cons.
      now destruct (period_eqb (to_period (ds r)) k).
Qed.

Lemma groups_total (rows : list Obs) (ks : list Period) :
  NoDup ks ->
  (forall r, In r rows -> In (to_period (ds r)) ks) ->
  Qsum (map (fun k => Qsum (group k rows)) ks)
  == Qsum (map temperature rows).
Proof.
  intros N. induction rows as [|r t IH]; intro H.
  - rewrite (Qsum_map_eq _ (fun _ => 0)) by reflexivity.
    rewrite Qsum_map_const. simpl. ring.
  - rewrite (Qsum_map_eq _
               (fun k => (if period_eqb (to_period (ds r)) k
                          then temperature r else 0)
                         + Qsum (group k t))).
    + rewrite Qsum_map_add, one_hot_sum, IH; trivial.
      * reflexivity.
      * intros x Hx. apply H. now right.
      * apply H. now left.
    + intros k _. rewrite group_cons.
      destruct (period_eqb (to_period (ds r)) k); simpl; ring.
Qed.

End Partition.

(** X9.  The monthly points partition the days: the day counts of the
    months add up to the number of rows, and the monthly means weighted by
    their day counts add up to the sum of all daily temperatures. *)
Theorem monthly_partition (rows : list Obs) :
  list_sum (map (fun p => length (group (year_month p) rows)) (monthly rows))
  = length rows
  /\ Qsum (map (fun p => mean_temperature p
                         * Qlen (group (year_month p) rows))
               (monthly rows))
     == Qsum (map temperature rows).
Proof.
  set (ks := group_keys (map (fun r => to_period (ds r)) rows)).
  assert (N : NoDup ks) by apply sorted_NoDup, group_keys_sorted.
  assert (C : forall r, In r rows -> In (to_period (ds r)) ks).
  { intros r Hr. apply group_keys_In, in_map_iff. now exists r. }
  unfold monthly. fold ks. rewrite !map_map. cbn [year_month mean_temperature].
  split; [now apply groups_count|].
  rewrite <- (groups_total rows ks N C).
  apply Qsum_map_eq. intros k Hk.
  apply (proj1 (group_keys_In _ _)) in Hk.
  apply (proj1 (in_map_iff _ _ _)) in Hk. destruct Hk as [r [E Hr]].
  unfold Qmean. field. apply Qlen_nonzero. intro Z.
  assert (I : In (temperature r) (group k rows))
    by (apply group_In; now exists r).
  rewrite Z in I. destruct I.
Qed.

(** X10.  On a non-empty series the two thresholds lie inside the range of
    the data: minimum <= cold threshold <= heat threshold <= maximum. *)
Theorem thresholds_within_range (rows : list Obs) :
  rows <> [] ->
  exists h c mx mn,
    heat_threshold rows = Ok h /\ cold_threshold rows = Ok c
    /\ maximum (map temperature rows) = Some mx
    /\ minimum (map temperature rows) = Some mn
    /\ mn <= c /\ c <= h /\ h <= mx.
Proof.
  intro H. apply temperatures_not_nil in H.
  destruct (percentile_mono (map temperature rows) 5 95 H)
    as [c [h [Hc [Hh L]]]]; [lra|lra|lra|].
  destruct (percentile_between (map temperature rows) 95 H)
    as [h' [Hh' [_ Up]]]; [lra|lra|].
  destruct (percentile_between (map temperature rows) 5 H)
    as [c' [Hc' [Lo _]]]; [lra|lra|].
  rewrite Hh in Hh'. rewrite Hc in Hc'. apply Ok_inj in Hh', Hc'.
  subst h' c'.
  assert (N : (1 <= length (map temperature rows))%nat)
    by (destruct (map temperature rows); [congruence | simpl; lia]).
  destruct (percentile_positions _ 95 N) as [_ [_ [_ P95]]]; [lra|lra|].
  destruct (percentile_positions _ 5 N) as [_ [P5 _]]; [lra|lra|].
  assert (I : forall i, (i < length (map temperature rows))%nat ->
                        In (nth i (sort (map temperature rows)) 0)
                           (map temperature rows)).
  { intros i Hi. apply (Permutation_in _ (sort_perm _)).
    apply nth_In. now rewrite sort_length. }
  unfold heat_threshold, cold_threshold.
  destruct (map temperature rows) as [|x t] eqn:E; [congruence|].
  destruct (fold_max_spec t x) as [_ BM].
  destruct (fold_min_spec t x) as [_ Bm].
  exists h, c, (fold_left Qmax2 t x), (fold_left Qmin2 t x).
  split; [exact Hh|]. split; [exact Hc|].
  split; [reflexivity|]. split; [reflexivity|].
  split; [|split; [exact L|]].
  - apply Qle_trans with (2 := Lo). apply Bm, I. simpl in *. lia.
  - apply Qle_trans with (1 := Up). apply BM, I. exact P95.
Qed.

Lemma thresholds_within_range_witness :
  exists h c mx mn,
    heat_threshold three_days = Ok h /\ cold_threshold three_days = Ok c
    /\ maximum (map temperature three_days) = Some mx
    /\ minimum (map temperature three_days) = Some mn
    /\ mn <= c /\ c <= h /\ h <= mx.
Proof. apply (thresholds_within_range three_days). discriminate. Defined.

(** ** How many days can be extreme *)

Section ExtremeCounts.

Lemma filter_length_bound {A : Type} (p : A -> bool) (l : list A) :
  (length (filter p l) <= length l)%nat.
Proof. induction l as [|a t IH]; simpl; [lia|]. destruct (p a); simpl; lia. Qed.

Lemma filter_length_perm {A : Type} (p : A -> bool) (l l' : list A) :
  Permutation l l' -> length (filter p l) = length (filter p l').
Proof.
  induction 1 as [|a l l' P IH|a b l|l l' l'' P IH P' IH']; simpl.
  - reflexivity.
  - destruct (p a); simpl; now rewrite IH.
  - destruct (p a), (p b); reflexivity.
  - now rewrite IH.
Qed.

Lemma filter_length_impl {A : Type} (p q : A -> bool) (l : list A) :
  (forall a, p a = true -> q a = true) ->
  (length (filter p l) <= length (filter q l))%nat.
Proof.
  intro H. induction l as [|a t IH]; simpl; [lia|].
  destruct (p a) eqn:E.
  - rewrite (H a E). simpl. lia.
  - destruct (q a); simpl; lia.
Qed.

(** In an increasing list at most the entries after position [k] are
    strictly greater than the entry at [k]. *)
Lemma sorted_count_above (s : list Q) (k : nat) :
  StronglySorted Qle s -> (k < length s)%nat ->
  (length (filter (fun x => Qltb (nth k s 0%Q) x) s)
   <= length s - 1 - k)%nat.
Proof.
  intros S K.
  set (p := fun x => Qltb (nth k s 0) x).
  assert (E : filter p s
              = filter p (firstn (Datatypes.S k) s
                          ++ skipn (Datatypes.S k) s))
    by now rewrite firstn_skipn.
  rewrite E, filter_app, length_app. clear E. unfold p.
  rewrite (filter_none _ (firstn (Datatypes.S k) s)).
  - pose proof (filter_length_bound (fun x => Qltb (nth k s 0) x)
                  (skipn (Datatypes.S k) s)) as B.
    rewrite length_skipn in B. cbn [length]. lia.
  - intros x Hx. destruct (In_nth _ _ 0 Hx) as [j [Lj E]].
    rewrite length_firstn in Lj.
    rewrite nth_firstn in E.
    replace (j <? Datatypes.S k)%nat with true in E
      by (symmetry; apply Nat.ltb_lt; lia).
    subst x. apply Qltb_nlt. apply sorted_nth_le; [exact S|lia|exact K].
Qed.

(** At most the entries before position [k] are strictly smaller than the
    entry at [k]. *)
Lemma sorted_count_below (s : list Q) (k : nat) :
  StronglySorted Qle s -> (k < length s)%nat ->
  (length (filter (fun x => Qltb x (nth k s 0%Q)) s) <= k)%nat.
Proof.
  intros S K.
  set (p := fun x => Qltb x (nth k s 0)).
  assert (E : filter p s = filter p (firstn k s ++ skipn k s))
    by now rewrite firstn_skipn.
  rewrite E, filter_app, length_app. clear E. unfold p.
  rewrite (filter_none _ (skipn k s)).
  - pose proof (filter_length_bound (fun x => Qltb x (nth k s 0))
                  (firstn k s)) as B.
    pose proof (firstn_le_length k s). cbn [length]. lia.
  - intros x Hx. destruct (In_nth _ _ 0 Hx) as [j [Lj E]].
    rewrite length_skipn in Lj. rewrite nth_skipn in E.
    subst x. apply Qltb_nlt. apply sorted_nth_le; [exact S|lia|lia].
Qed.

Lemma heatwave_count (rows : list Obs) (h : Q) :
  length (heatwave_days rows h)
  = length (filter (fun x => Qltb h x) (sort (map temperature rows))).
Proof.
  rewrite (filter_length_perm _ _ _ (sort_perm (map temperature rows))).
  rewrite filter_map_comm, length_map. reflexivity.
Qed.

Lemma coldwave_count (rows : list Obs) (c : Q) :
  length (coldwave_days rows c)
  = length (filter (fun x => Qltb x c) (sort (map temperature rows))).
Proof.
  rewrite (filter_length_perm _ _ _ (sort_perm (map temperature rows))).
  rewrite filter_map_comm, length_map. reflexivity.
Qed.

End ExtremeCounts.

Section FivePercent.

Variable n : nat.
Hypothesis n_pos : (1 <= n)%nat.

Lemma virtual_index_95 :
  virtual_index n 95 == (19 # 20) * (inject_Z (Z.of_nat n) - 1).
Proof. unfold virtual_index. field. Qed.

Lemma virtual_index_5 :
  virtual_index n 5 == (1 # 20) * (inject_Z (Z.of_nat n) - 1).
Proof. unfold virtual_index. field. Qed.

Lemma floor_95 :
  (19 * Z.of_nat n - 38 <= 20 * Qfloor (virtual_index n 95))%Z.
Proof.
  pose proof (Qlt_floor (virtual_index n 95)) as U.
  rewrite inject_Z_succ in U. pose proof virtual_index_95 as V.
  assert (K : inject_Z (19 * Z.of_nat n - 19)
              < inject_Z (20 * Qfloor (virtual_index n 95) + 20)).
  { unfold Z.sub. rewrite !inject_Z_plus, !inject_Z_mult, inject_Z_opp.
    change (inject_Z 19) with 19. change (inject_Z 20) with 20. lra. }
  rewrite <- Zlt_Qlt in K. lia.
Qed.

Lemma floor_5 :
  (20 * Qfloor (virtual_index n 5) <= Z.of_nat n - 1)%Z.
Proof.
  pose proof (Qfloor_le (virtual_index n 5)) as L.
  pose proof virtual_index_5 as V.
  assert (K : inject_Z (20 * Qfloor (virtual_index n 5))
              <= inject_Z (Z.of_nat n - 1)).
  { unfold Z.sub. rewrite !inject_Z_plus, !inject_Z_mult, inject_Z_opp.
    change (inject_Z 20) with 20. change (inject_Z 1) with 1. lra. }
  rewrite <- Zle_Qle in K. exact K.
Qed.

End FivePercent.

(** X11.  On a non-empty series of [n] days the tracker reports at most
    [n - 1 - floor(0.95 (n-1))] heatwave days and at most
    [min (floor(0.05 (n-1)) + 1) (n - 1)] coldwave days; each count is
    therefore at most a twentieth of [n + 19], and a single day is never
    extreme. *)
Theorem extreme_days_bounded (rows : list Obs) :
  rows <> [] ->
  let n := length rows in
  exists e,
    extreme_events rows = Ok e
    /\ (n_heatwave_days e
        <= n - 1 - Z.to_nat (Qfloor (virtual_index n 95)))%nat
    /\ (n_coldwave_days e
        <= Nat.min (Z.to_nat (Qfloor (virtual_index n 5)) + 1) (n - 1))%nat
    /\ (20 * n_heatwave_days e <= n + 19)%nat
    /\ (20 * n_coldwave_days e <= n + 19)%nat.
Proof.
  intros H n. apply temperatures_not_nil in H.
  assert (N : (1 <= n)%nat).
  { unfold n. rewrite <- (length_map temperature).
    destruct (map temperature rows); [congruence | simpl; lia]. }
  destruct (percentile_between (map temperature rows) 95 H)
    as [h [Hh [Lo _]]]; [lra|lra|].
  destruct (percentile_between (map temperature rows) 5 H)
    as [c [Hc [_ Hi]]]; [lra|lra|].
  rewrite length_map in Lo, Hi. fold n in Lo, Hi.
  destruct (percentile_positions n 95 N) as [F95 [P95 _]]; [lra|lra|].
  destruct (percentile_positions n 5 N) as [F5 [P5 [_ Q5]]]; [lra|lra|].
  pose proof (floor_95 n) as B95. pose proof (floor_5 n) as B5.
  set (lo95 := Z.to_nat (Qfloor (virtual_index n 95))) in *.
  set (lo5 := Z.to_nat (Qfloor (virtual_index n 5))) in *.
  assert (LS : length (sort (map temperature rows)) = n)
    by now rewrite sort_length, length_map.
  exists (mkExtreme h c (length (heatwave_days rows h))
                    (length (coldwave_days rows c))).
  split; [now apply extreme_events_value|].
  cbn [n_heatwave_days n_coldwave_days].
  assert (A : (length (heatwave_days rows h) <= n - 1 - lo95)%nat).
  { rewrite heatwave_count.
    apply Nat.le_trans
      with (length (filter (fun x => Qltb (nth lo95
                                             (sort (map temperature rows)) 0)
                                          x)
                           (sort (map temperature rows)))).
    - apply filter_length_impl. intros x Hx.
      apply Qltb_lt in Hx. apply Qltb_lt. lra.
    - pose proof (sorted_count_above (sort (map temperature rows)) lo95
                    (sort_sorted _)) as C.
      rewrite LS in C. apply C. lia. }
  assert (B : (length (coldwave_days rows c)
               <= Nat.min (lo5 + 1) (n - 1))%nat).
  { rewrite coldwave_count.
    apply Nat.le_trans
      with (length (filter (fun x => Qltb x
                                       (nth (Nat.min (lo5 + 1) (n - 1))
                                            (sort (map temperature rows)) 0))
                           (sort (map temperature rows)))).
    - apply filter_length_impl. intros x Hx.
      apply Qltb_lt in Hx. apply Qltb_lt. lra.
    - apply sorted_count_below; [apply sort_sorted|]. rewrite LS.
      exact Q5. }
  split; [exact A|]. split; [exact B|].
  split; unfold lo95, lo5 in *; lia.
Qed.

Lemma extreme_days_bounded_witness :
  exists e,
    extreme_events hundred_days = Ok e
    /\ (n_heatwave_days e <= 5)%nat /\ (n_coldwave_days e <= 5)%nat.
Proof.
  destruct (extreme_days_bounded hundred_days) as [e [E [A [B _]]]];
    [discriminate|].
  exists e. split; [exact E|]. split; [exact A | exact B].
Defined.

(** ** When the run completes *)

Section Completion.

Variable forecast_service : list (Date * Q) -> nat -> result (list (Date * Q)).

Lemma extreme_events_defined (rows : list Obs) :
  rows <> [] -> exists e, extreme_events rows = Ok e.
Proof.
  intro H. destruct (thresholds_ordered_nonempty rows H)
    as [h [c [Hh [Hc _]]]].
  eexists. exact (extreme_events_value rows h c Hh Hc).
Qed.

Lemma run_ok (weather : list WeatherRow) (city : string) (unit : Unit)
    (f : list (Date * Q)) :
  select_city weather city <> [] ->
  forecast_service (prophet_df (filtered weather city unit)) 365%nat = Ok f ->
  exists d,
    run forecast_service weather city unit = Ok d
    /\ forecast d = f
    /\ monthly_points d = monthly (filtered weather city unit)
    /\ anomaly_points d = anomalies (monthly_points d)
    /\ n_anomalies d = length (anomaly_points d)
    /\ extreme_events (filtered weather city unit) = Ok (extremes d).
Proof.
  intros H F. pose proof (filtered_not_nil weather city unit H) as N.
  destruct (extreme_events_defined _ N) as [e E].
  unfold run. cbv zeta.
  rewrite (trend_direction_cons _ (temperatures_not_nil _ N)).
  cbn [bind]. rewrite F. cbn [bind]. rewrite E. cbn [bind].
  eexists. split; [reflexivity|].
  cbn [forecast monthly_points anomaly_points n_anomalies extremes].
  repeat split.
Qed.

End Completion.

(** X12.  The sections that depend on the selection (KPIs, trend, anomaly
    detection, forecast, extreme events) complete exactly when the
    selection has a row and the forecast call returns: none of their other
    computations can raise.  When they complete, the dashboard holds the
    forecast, the monthly points of the selection, their anomalies with the
    count shown, and the extreme-event figures. *)
Theorem run_completes
    (forecast_service : list (Date * Q) -> nat -> result (list (Date * Q)))
    (weather : list WeatherRow) (city : string) (unit : Unit) :
  ((exists d, run forecast_service weather city unit = Ok d)
   <-> select_city weather city <> []
       /\ exists f,
            forecast_service (prophet_df (filtered weather city unit)) 365%nat
            = Ok f)
  /\ forall d,
       run forecast_service weather city unit = Ok d ->
       forecast_service (prophet_df (filtered weather city unit)) 365%nat
       = Ok (forecast d)
       /\ monthly_points d = monthly (filtered weather city unit)
       /\ anomaly_points d = anomalies (monthly_points d)
       /\ n_anomalies d = length (anomaly_points d)
       /\ extreme_events (filtered weather city unit) = Ok (extremes d).
Proof.
  assert (K : forall d,
             run forecast_service weather city unit = Ok d ->
             select_city weather city <> []
             /\ exists f,
                  forecast_service (prophet_df (filtered weather city unit))
                                   365%nat = Ok f
                  /\ forecast d = f
                  /\ monthly_points d = monthly (filtered weather city unit)
                  /\ anomaly_points d = anomalies (monthly_points d)
                  /\ n_anomalies d = length (anomaly_points d)
                  /\ extreme_events (filtered weather city unit)
                     = Ok (extremes d)).
  { intros d R.
    assert (N : select_city weather city <> []).
    { intro E. rewrite (run_empty forecast_service weather city unit E) in R.
      discriminate. }
    split; [exact N|].
    destruct (forecast_service (prophet_df (filtered weather city unit))
                               365%nat) as [f|e] eqn:F.
    - destruct (run_ok forecast_service weather city unit f N F)
        as [d' [R' P]].
      rewrite R in R'. apply Ok_inj in R'. subst d'. now exists f.
    - rewrite (run_forecast_raises forecast_service weather city unit e N F)
        in R. discriminate. }
  split; [split|].
  - intros [d R]. destruct (K d R) as [N [f [F _]]]. split; [exact N|].
    now exists f.
  - intros [N [f F]].
    destruct (run_ok forecast_service weather city unit f N F) as [d [R _]].
    now exists d.
  - intros d R. destruct (K d R) as [_ [f [F [E P]]]]. subst f.
    split; [exact F | exact P].
Qed.

Lemma run_completes_witness :
  exists d,
    run strict_forecast sample_weather "Pune" Celsius = Ok d
    /\ n_anomalies d = 0%nat
    /\ length (forecast d) = 367%nat.
Proof.
  destruct (run_completes strict_forecast sample_weather "Pune" Celsius)
    as [[_ C] P].
  destruct C as [d R].
  - split; [discriminate|]. eexists. reflexivity.
  - exists d. split; [exact R|].
    destruct (P d R) as [F [M [A [N _]]]].
    split.
    + rewrite N, A, M. reflexivity.
    + apply Ok_inj in F. rewrite <- F. reflexivity.
Defined.

(** ** Distinct values in order *)

Section UniqueSorted.

Lemma present_In {A : Type} (a : A) (l : list (option A)) :
  In a (present l) <-> In (Some a) l.
Proof.
  induction l as [|[b|] t IH]; simpl.
  - tauto.
  - rewrite IH. split; intros [H|H]; auto; left; congruence.
  - rewrite IH. split; [auto|]. intros [H|H]; [discriminate|exact H].
Qed.

Lemma unique_In (x : string) (l : list string) :
  In x (unique l) <-> In x l.
Proof.
  induction l as [|y t IH]; simpl; [tauto|].
  rewrite filter_In, IH, negb_true_iff, String.eqb_neq.
  destruct (string_dec y x) as [E|N]; [|tauto].
  split; auto.
Qed.

Lemma unique_NoDup (l : list string) : NoDup (unique l).
Proof.
  induction l as [|y t IH]; simpl; constructor.
  - rewrite filter_In, negb_true_iff, String.eqb_neq. tauto.
  - now apply NoDup_filter.
Qed.

Lemma insert_string_perm (x : string) (l : list string) :
  Permutation (insert_string x l) (x :: l).
Proof.
  induction l as [|y t IH]; simpl; [reflexivity|].
  destruct (String.leb x y); [reflexivity|].
  rewrite IH. apply perm_swap.
Qed.

Lemma sorted_perm (l : list string) : Permutation (sorted l) l.
Proof.
  induction l as [|x t IH]; simpl; [reflexivity|].
  rewrite insert_string_perm. now constructor.
Qed.

Lemma insert_string_sorted (x : string) (l : list string) :
  Sorted (fun a b => String.leb a b = true) l ->
  Sorted (fun a b => String.leb a b = true) (insert_string x l).
Proof.
  induction 1 as [|y t S IH R]; simpl.
  - repeat constructor.
  - destruct (String.leb x y) eqn:E.
    + constructor; [now constructor|]. now constructor.
    + assert (L : String.leb y x = true)
        by (destruct (String.leb_total x y); congruence).
      constructor; [exact IH|].
      destruct t as [|z t']; simpl.
      * now constructor.
      * destruct (String.leb x z); constructor; [exact L|].
        now inversion R.
Qed.

Lemma sorted_ordered (l : list string) :
  Sorted (fun a b => String.leb a b = true) (sorted l).
Proof.
  induction l as [|x t IH]; simpl; [constructor|].
  now apply insert_string_sorted.
Qed.

Lemma sorted_In (x : string) (l : list string) :
  In x (sorted l) <-> In x l.
Proof.
  split; apply Permutation_in;
    [apply sorted_perm | apply Permutation_sym, sorted_perm].
Qed.

Lemma sorted_NoDup_keeps (l : list string) : NoDup l -> NoDup (sorted l).
Proof.
  apply Permutation_NoDup, Permutation_sym, sorted_perm.
Qed.

End UniqueSorted.

(** X13.  The sidebar offers each continent present in the city table once,
    in increasing order, and for the selected continent each city name of a
    row of that continent once, in increasing order; a row whose continent
    is missing offers nothing. *)
Theorem sidebar_options (geo_df : list GeoRow) (selected_continent : string) :
  NoDup (continents geo_df)
  /\ Sorted (fun a b => String.leb a b = true) (continents geo_df)
  /\ (forall k, In k (continents geo_df)
                <-> exists g, In g geo_df /\ continent g = Some k)
  /\ NoDup (city_options geo_df selected_continent)
  /\ Sorted (fun a b => String.leb a b = true)
            (city_options geo_df selected_continent)
  /\ (forall c, In c (city_options geo_df selected_continent)
                <-> exists g, In g geo_df /\ geo_city_name g = c
                              /\ continent g = Some selected_continent).
Proof.
  unfold continents, city_options, cities_list.
  split; [apply sorted_NoDup_keeps, unique_NoDup|].
  split; [apply sorted_ordered|].
  split.
  { intro k. rewrite sorted_In, unique_In, present_In, in_map_iff.
    split; intros [g [A B]]; exists g; tauto. }
  split; [apply sorted_NoDup_keeps, unique_NoDup|].
  split; [apply sorted_ordered|].
  intro c. rewrite sorted_In, unique_In, in_map_iff. split.
  - intros [g [E H]]. apply filter_In in H. destruct H as [H C].
    exists g. split; [exact H|]. split; [exact E|].
    unfold in_continent in C. destruct (continent g) as [k|]; [|discriminate].
    apply String.eqb_eq in C. now subst k.
  - intros [g [H [E C]]]. exists g. split; [exact E|].
    apply filter_In. split; [exact H|].
    unfold in_continent. rewrite C. apply String.eqb_refl.
Qed.

Example sidebar_options_sample :
  continents sample_geo = [ "Asia"; "North America" ]%string
  /\ city_options sample_geo "Asia" = [ "Pune"; "Salem" ]%string.
Proof. split; reflexivity. Qed.

(** ** The country averages of the choropleth *)

Section Choropleth.

Variable weather : list WeatherRow.
Variable geo_df : list GeoRow.

(** The merged rows of one weather row. *)
Lemma merged_rows_In (w r : WeatherRow) (o : option string) :
  In (r, o)
     (match filter (fun g => String.eqb (geo_city_name g) (city_name w))
                   geo_df with
      | [] => [(w, None)]
      | gs => map (fun g => (w, iso3 g)) gs
      end)
  <-> r = w
      /\ ((exists g, In g geo_df /\ geo_city_name g = city_name w
                     /\ iso3 g = o)
          \/ (o = None
              /\ forall g, In g geo_df -> geo_city_name g <> city_name w)).
Proof.
  destruct (filter (fun g => String.eqb (geo_city_name g) (city_name w))
                   geo_df) as [|g0 gs] eqn:F.
  - assert (N : forall g, In g geo_df -> geo_city_name g <> city_name w).
    { intros g Hg E.
      assert (I : In g (filter (fun g => String.eqb (geo_city_name g)
                                             (city_name w)) geo_df)).
      { apply filter_In. split; [exact Hg|]. now apply String.eqb_eq. }
      rewrite F in I. destruct I. }
    simpl. split.
    + intros [E|[]]. injection E as <- <-. split; [reflexivity|]. now right.
    + intros [-> [[g [Hg [E _]]]|[-> _]]]; [|now left].
      exfalso. exact (N g Hg E).
  - rewrite <- F. rewrite in_map_iff. split.
    + intros [g [E Hg]]. injection E as <- <-.
      apply filter_In in Hg. destruct Hg as [Hg C].
      apply String.eqb_eq in C. split; [reflexivity|]. left. now exists g.
    + intros [-> [[g [Hg [E I]]]|[_ N]]].
      * exists g. split; [now rewrite I|].
        apply filter_In. split; [exact Hg|]. now apply String.eqb_eq.
      * exfalso. apply (N g0).
        -- assert (I : In g0 (g0 :: gs)) by now left.
           rewrite <- F in I. now apply filter_In in I.
        -- assert (I : In g0 (g0 :: gs)) by now left.
           rewrite <- F in I. apply filter_In in I.
           now apply String.eqb_eq.
Qed.

Lemma merge_left_In (r : WeatherRow) (o : option string) :
  In (r, o) (merge_left weather geo_df)
  <-> In r weather
      /\ ((exists g, In g geo_df /\ geo_city_name g = city_name r
                     /\ iso3 g = o)
          \/ (o = None
              /\ forall g, In g geo_df -> geo_city_name g <> city_name r)).
Proof.
  unfold merge_left. rewrite in_flat_map. split.
  - intros [w [Hw I]]. apply merged_rows_In in I. destruct I as [-> I].
    now split.
  - intros [Hr I]. exists r. split; [exact Hr|].
    apply merged_rows_In. now split.
Qed.

Lemma country_keys :
  map fst (country_avg weather geo_df)
  = sorted (unique (present (map snd (merge_left weather geo_df)))).
Proof.
  unfold country_avg. cbv zeta. rewrite map_map. cbn [fst]. apply map_id.
Qed.

Lemma country_key_In (k : string) :
  In k (map fst (country_avg weather geo_df))
  <-> exists r g, In r weather /\ In g geo_df
                  /\ geo_city_name g = city_name r /\ iso3 g = Some k.
Proof.
  rewrite country_keys, sorted_In, unique_In, present_In, in_map_iff. split.
  - intros [[r o] [E I]]. simpl in E. subst o.
    apply merge_left_In in I. destruct I as [Hr [[g [Hg [N C]]]|[D _]]];
      [|discriminate].
    now exists r, g.
  - intros [r [g [Hr [Hg [N C]]]]]. exists (r, Some k).
    split; [reflexivity|]. apply merge_left_In. split; [exact Hr|].
    left. now exists g.
Qed.

Lemma country_group_app (k : string)
    (l l' : list (WeatherRow * option string)) :
  country_group k (l ++ l') = country_group k l ++ country_group k l'.
Proof. unfold country_group. now rewrite filter_app, map_app. Qed.

(** The merged rows of one weather row that fall in country [k]: its
    temperature, once for each matching row of the city table. *)
Lemma country_group_row (k : string) (w : WeatherRow) :
  country_group k
    (match filter (fun g => String.eqb (geo_city_name g) (city_name w))
                  geo_df with
     | [] => [(w, None)]
     | gs => map (fun g => (w, iso3 g)) gs
     end)
  = repeat (avg_temp_c w) (match_count k geo_df w).
Proof.
  unfold match_count.
  assert (G : forall gs,
             country_group k (map (fun g => (w, iso3 g)) gs)
             = repeat (avg_temp_c w)
                 (length (filter (fun g => match iso3 g with
                                           | Some c => String.eqb c k
                                           | None => false
                                           end) gs))).
  { induction gs as [|g gs IH]; [reflexivity|].
    unfold country_group in *. cbn [map filter snd fst].
    destruct (iso3 g) as [c|]; [|exact IH].
    destruct (String.eqb c k); [|exact IH].
    cbn [map length repeat fst]. now rewrite IH. }
  assert (F : forall l,
             length (filter (fun g => String.eqb (geo_city_name g)
                                                 (city_name w)
                                      && match iso3 g with
                                         | Some c => String.eqb c k
                                         | None => false
                                         end) l)
             = length (filter (fun g => match iso3 g with
                                        | Some c => String.eqb c k
                                        | None => false
                                        end)
                              (filter (fun g => String.eqb (geo_city_name g)
                                                           (city_name w))
                                      l))).
  { induction l as [|g l IH]; [reflexivity|]. cbn [filter].
    destruct (String.eqb (geo_city_name g) (city_name w)); cbn [andb filter];
      [|exact IH].
    destruct (match iso3 g with
              | Some c => String.eqb c k
              | None => false
              end); cbn [length]; now rewrite IH. }
  rewrite F.
  destruct (filter (fun g => String.eqb (geo_city_name g) (city_name w))
                   geo_df) as [|g0 gs]; [reflexivity|].
  apply G.
Qed.

Lemma country_group_merge (k : string) (l : list WeatherRow) :
  country_group k (merge_left l geo_df)
  = flat_map (fun w => repeat (avg_temp_c w) (match_count k geo_df w)) l.
Proof.
  induction l as [|w t IH]; [reflexivity|].
  unfold merge_left in *. cbn [flat_map].
  now rewrite country_group_app, country_group_row, IH.
Qed.

Lemma Qsum_app (l l' : list Q) : Qsum (l ++ l') == Qsum l + Qsum l'.
Proof.
  induction l as [|x t IH]; simpl; [ring|]. rewrite IH. ring.
Qed.

Lemma Qsum_repeat (x : Q) (n : nat) :
  Qsum (repeat x n) == x * inject_Z (Z.of_nat n).
Proof.
  induction n as [|n IH].
  - simpl. ring.
  - cbn [repeat Qsum fold_right]. fold (Qsum (repeat x n)).
    rewrite IH, Nat2Z.inj_succ. unfold Z.succ. rewrite inject_Z_plus. ring.
Qed.

Lemma country_group_length (k : string) (l : list WeatherRow) :
  length (country_group k (merge_left l geo_df))
  = list_sum (map (match_count k geo_df) l).
Proof.
  rewrite country_group_merge.
  induction l as [|w t IH]; [reflexivity|].
  cbn [flat_map map]. rewrite length_app, repeat_length, list_sum_cons.
  now rewrite IH.
Qed.

Lemma country_group_sum (k : string) (l : list WeatherRow) :
  Qsum (country_group k (merge_left l geo_df))
  == Qsum (map (fun r => avg_temp_c r
                         * inject_Z (Z.of_nat (match_count k geo_df r))) l).
Proof.
  rewrite country_group_merge.
  induction l as [|w t IH]; [reflexivity|].
  cbn [flat_map map]. rewrite Qsum_app, Qsum_repeat, IH. reflexivity.
Qed.

Lemma country_group_nonempty (k : string) :
  In k (map fst (country_avg weather geo_df)) ->
  country_group k (merge_left weather geo_df) <> [].
Proof.
  rewrite country_keys, sorted_In, unique_In, present_In, in_map_iff.
  intros [[r o] [E I]] Z. simpl in E. subst o.
  assert (J : In (avg_temp_c r)
                 (country_group k (merge_left weather geo_df))).
  { unfold country_group. apply in_map_iff. exists (r, Some k).
    split; [reflexivity|]. apply filter_In. split; [exact I|].
    simpl. apply String.eqb_refl. }
  rewrite Z in J. destruct J.
Qed.

End Choropleth.

(** X14.  The choropleth has one row for each country code that the city
    table attaches to the city name of some weather row, each code once, in
    increasing order; weather rows whose city name the table does not know,
    or knows only without a country code, add no row. *)
Theorem country_avg_keys (weather : list WeatherRow) (geo_df : list GeoRow) :
  NoDup (map fst (country_avg weather geo_df))
  /\ Sorted (fun a b => String.leb a b = true)
            (map fst (country_avg weather geo_df))
  /\ forall k,
       In k (map fst (country_avg weather geo_df))
       <-> exists r g, In r weather /\ In g geo_df
                       /\ geo_city_name g = city_name r
                       /\ iso3 g = Some k.
Proof.
  rewrite country_keys.
  split; [apply sorted_NoDup_keeps, unique_NoDup|].
  split; [apply sorted_ordered|].
  intro k. rewrite <- country_keys. apply country_key_In.
Qed.

(** X15.  A country's value on the choropleth is a weighted mean of the
    temperatures of all weather rows: each row weighs as many times as the
    city table has rows with its city name and that country code, so a city
    name listed twice in a country counts twice and a city name shared by
    two countries counts in both. *)
Theorem country_avg_weighted (weather : list WeatherRow)
    (geo_df : list GeoRow) :
  Forall (fun p =>
            let k := fst p in
            let total := list_sum (map (match_count k geo_df) weather) in
            (0 < total)%nat
            /\ snd p
               == Qsum (map (fun r =>
                               avg_temp_c r
                               * inject_Z (Z.of_nat (match_count k geo_df r)))
                            weather)
                  / inject_Z (Z.of_nat total))
         (country_avg weather geo_df).
Proof.
  apply Forall_forall. intros [k v] Hp. cbn [fst snd].
  assert (Hk : In k (map fst (country_avg weather geo_df)))
    by (apply in_map_iff; now exists (k, v)).
  pose proof (country_group_nonempty weather geo_df k Hk) as N.
  unfold country_avg in Hp. cbv zeta in Hp.
  apply (proj1 (in_map_iff _ _ _)) in Hp. destruct Hp as [k' [E _]].
  injection E as -> <-.
  rewrite <- country_group_length. split.
  - destruct (country_group k (merge_left weather geo_df));
      [congruence | simpl; lia].
  - unfold Qmean, Qlen. now rewrite country_group_sum.
Qed.

(** X16.  Converting the country means to the selected unit gives the means
    of the converted temperatures: on the choropleth the conversion after
    the aggregation agrees with a conversion before it, and the unit does
    not change which countries are shown. *)
Theorem choropleth_unit (unit : Unit) (weather : list WeatherRow)
    (geo_df : list GeoRow) :
  map fst (country_temperature unit weather geo_df)
  = map fst (country_avg weather geo_df)
  /\ Forall (fun p =>
               snd p
               == Qmean (map (convert unit)
                             (country_group (fst p)
                                (merge_left weather geo_df))))
            (country_temperature unit weather geo_df).
Proof.
  unfold country_temperature. split; [now rewrite map_map|].
  apply Forall_forall. intros [k t] Hp.
  apply (proj1 (in_map_iff _ _ _)) in Hp. destruct Hp as [[k' v] [E Hp]].
  cbn [fst snd] in *. injection E as -> <-.
  assert (Hk : In k (map fst (country_avg weather geo_df)))
    by (apply in_map_iff; now exists (k, v)).
  pose proof (country_group_nonempty weather geo_df k Hk) as N.
  unfold country_avg in Hp. cbv zeta in Hp.
  apply (proj1 (in_map_iff _ _ _)) in Hp. destruct Hp as [k' [E _]].
  injection E as -> <-.
  destruct unit.
  - now rewrite map_id.
  - rewrite (Qmean_affine (9 # 5) 32 _ _ (map_affine _)) by exact N.
    apply convert_fahrenheit.
Qed.

(** Two weather rows against the sample city table: the city name [Salem]
    belongs to two countries, so its temperature enters both means. *)
Example country_avg_sample :
  map (fun p => (fst p, Qred (snd p)))
      (country_avg [ mkRow (mkDate 2021 3 1) 30 "Pune";
                     mkRow (mkDate 2021 3 1) 10 "Salem";
                     mkRow (mkDate 2021 3 1) 5 "Atlantis";
                     mkRow (mkDate 2021 3 1) 99 "Nowhere" ]
                   sample_geo)
  = [ ("IND"%string, 20); ("USA"%string, 10) ].
Proof. reflexivity. Qed.
